(** * Distributed evaluation of an image-captioning model

    A shallow embedding of [image_captioning/engine/inference.py] and of
    the driver [tools/test_net.py]: the shard loop with its first-seen
    filter and running loss, the loss reduction, the root-side merge of
    the gathered predictions, the orchestration of the collective calls,
    and the driver's handling of what [inference] returns.

    Python floats are IEEE binary64 numbers and are modelled by the
    kernel's primitive floats; the dictionary [done_ids] is a finite map;
    exceptions and the calls to the external collaborators are threaded
    through a small trace-and-error monad. *)

From Stdlib Require Import ZArith Floats Uint63.
From stdpp Require Import base option list gmap strings pretty.

Set Warnings "-register-all,-clear-no-such-hyp".
Open Scope Z_scope.

(** ** Python values *)

(** The hashable scalars that occur as dictionary keys in this program:
    [None], integers (image ids) and strings (field and metric names). *)
Inductive atom :=
| ANone
| AInt (z : Z)
| AStr (s : string).

Global Instance atom_eq_dec : EqDecision atom.
Proof. solve_decision. Defined.

(** A dictionary keeps its items in insertion order. A tensor is a
    zero-dimensional tensor holding one scalar; what the operations on
    tensors compute is left to the process group (see [reduction]). *)
Inductive value :=
| VAtom (a : atom)
| VFloat (x : float)
| VTensor (x : float)
| VList (l : list value)
| VDict (d : list (atom * value)).

Abbreviation VNone := (VAtom ANone).
Abbreviation VInt z := (VAtom (AInt z)).
Abbreviation VStr s := (VAtom (AStr s)).

(** ** Exceptions, events and the monad *)

Inductive exn :=
| ZeroDivisionError
| IndexError
| KeyError
| TypeError
| ValueError
| AttributeError
| NotATensor    (* what torch.distributed raises on a non-tensor argument *)
| RuntimeError.

(** The functions of the repository whose entry and exit are recorded. *)
Inductive fn :=
| F_compute_on_dataset
| F_reduce_loss
| F_synchronize
| F_accumulate
| F_coco_eval.

Global Instance fn_eq_dec : EqDecision fn.
Proof. solve_decision. Defined.

(** Calls that leave the evaluated core: the model, the criterion, the
    vocabulary, the process group and the file system. *)
Inductive event :=
| EvCall (f : fn)
| EvReturn (f : fn)
| EvModelEval
| EvForward (i : nat)
| EvCriterion (i : nat)
| EvDecodeSearch (i : nat) (beam_size : Z)
| EvDecodeSequence (i : nat)
| EvDistReduce
| EvBarrier
| EvAllGather
| EvScore
| EvOpenFile
| EvJsonDump (v : value)
| EvLog.

Inductive outcome (A : Type) :=
| Ok (a : A)
| Raise (e : exn).
Arguments Ok {A} a.
Arguments Raise {A} e.

Definition M (A : Type) : Type := list event * outcome A.

Definition trace {A} (m : M A) : list event := m.1.
Definition result {A} (m : M A) : outcome A := m.2.

Definition ret {A} (a : A) : M A := ([], Ok a).
Definition raise {A} (e : exn) : M A := ([], Raise e).
Definition emit (e : event) : M unit := ([e], Ok tt).
Definition lift {A} (o : outcome A) : M A := ([], o).

Definition bind {A B} (m : M A) (k : A → M B) : M B :=
  match m.2 with
  | Ok a => (m.1 ++ (k a).1, (k a).2)
  | Raise e => (m.1, Raise e)
  end.

Declare Scope py_scope.
Delimit Scope py_scope with py.
Notation "'let*' x ':=' m 'in' k" := (bind m (λ x, k))
  (at level 10, x name, m at level 100, k at level 200) : py_scope.
Notation "'let*' ' p ':=' m 'in' k" := (bind m (λ p, k))
  (at level 10, p pattern, m at level 100, k at level 200) : py_scope.
Notation "m ;;; k" := (bind m (λ _, k))
  (at level 100, k at level 200, right associativity) : py_scope.
Open Scope py_scope.

(** A call of one of the recorded functions: its entry, its body, and,
    when the body does not raise, its exit. *)
Definition call {A} (f : fn) (body : M A) : M A :=
  emit (EvCall f) ;;;
  let* a := body in
  emit (EvReturn f) ;;;
  ret a.

(** ** The shard loop: [compute_on_dataset] *)

(** What the collaborators yield for one batch of the data loader: the
    scalar [loss.item()], the captions [decode_sequence(vocab, seqs)] and
    the image ids [data['cocoids']]. *)
Record batch := Batch {
  loss_item : float;
  sents : list string;
  cocoids : list Z
}.

(** [{'image_id': cocoids[k], 'caption': sent}] *)
Definition entry (image_id : Z) (caption : string) : value :=
  VDict [(AStr "image_id", VInt image_id); (AStr "caption", VStr caption)].

(** The integer-to-float conversion of a true division [x / n]; batch
    counts and world sizes are far below 2^63. *)
Definition float_of_nat (n : nat) : float :=
  PrimFloat.of_uint63 (Uint63.of_Z (Z.of_nat n)).

(** [x / n] with a float [x] and an int [n]. *)
Definition truediv (x : float) (n : nat) : outcome float :=
  match n with
  | O => Raise ZeroDivisionError
  | S _ => Ok (PrimFloat.div x (float_of_nat n))
  end.

(** The inner loop [for k, sent in enumerate(sents)], from index [k] on. *)
Fixpoint collect (ids : list Z) (k : nat) (ss : list string)
    (predictions : list value) (done_ids : gmap Z Z)
    : outcome (list value * gmap Z Z) :=
  match ss with
  | [] => Ok (predictions, done_ids)
  | sent :: rest =>
    match ids !! k with
    | None => Raise IndexError
    | Some id =>
      let e := entry id sent in
      match done_ids !! id with
      | None => collect ids (S k) rest (predictions ++ [e]) (<[id := 0]> done_ids)
      | Some _ => collect ids (S k) rest predictions done_ids
      end
    end
  end.

(** The state carried around the outer loop. *)
Record loop_state := LoopState {
  val_loss_sum : float;
  val_loss_count : nat;
  predictions : list value;
  done_ids : gmap Z Z
}.

Definition init_state : loop_state :=
  LoopState PrimFloat.zero 0 [] ∅.

(** One iteration of [for i, data in enumerate(data_loader)]. *)
Definition step (beam_size : Z) (i : nat) (data : batch) (st : loop_state)
    : M loop_state :=
  emit (EvForward i) ;;;
  emit (EvCriterion i) ;;;
  let val_loss := loss_item data in
  let count := S (val_loss_count st) in
  let sum := PrimFloat.add (val_loss_sum st) val_loss in
  emit (EvDecodeSearch i beam_size) ;;;
  emit (EvDecodeSequence i) ;;;
  let* '(ps, ds) := lift (collect (cocoids data) 0 (sents data)
                            (predictions st) (done_ids st)) in
  ret (LoopState sum count ps ds).

Fixpoint loop (beam_size : Z) (i : nat) (data_loader : list batch)
    (st : loop_state) : M loop_state :=
  match data_loader with
  | [] => ret st
  | data :: rest =>
    let* st' := step beam_size i data st in
    loop beam_size (S i) rest st'
  end.

Definition compute_on_dataset (data_loader : list batch) (beam_size : Z)
    : M (list value * float) :=
  emit EvModelEval ;;;
  let* st := loop beam_size 0 data_loader init_state in
  let* mean := lift (truediv (val_loss_sum st) (val_loss_count st)) in
  ret (predictions st, mean).

(** ** The process group *)

(** One of the other processes of the group, seen from this one: the
    scalar of the tensor it hands to the reduction and the object it
    hands to the gather. *)
Record peer := Peer {
  peer_loss : float;
  peer_predictions : value
}.

(** The arithmetic of the loss tensors, which the source leaves to the
    data type of the tensors and to the backend of the process group:
    the sum that a reduction delivers to the root, given the values that
    the processes contribute in rank order (the order and the precision
    of the additions are the backend's); what the tensor of the process
    of a given rank other than the root holds afterwards; and the
    division of a tensor by an integer. *)
Record reduction := Reduction {
  reduce_sum : list float → float;
  reduce_elsewhere : nat → list float → float;
  tensor_div : float → nat → float
}.

(** The surroundings of one process: its rank, the other processes in
    ascending rank order, the external scorer, and the arithmetic of the
    tensors of the group. *)
Record world := World {
  rank : nat;
  peers : list peer;
  scorer : value → string → outcome value;
  arith : reduction
}.

(** What the processes hand to a reduction, in rank order: the value [x]
    of this process among those of the others. *)
Definition contributions (w : world) (x : float) : list float :=
  take (rank w) (peer_loss <$> peers w)
    ++ x :: drop (rank w) (peer_loss <$> peers w).

(** Modelled from the spec: [get_world_size] of
    [image_captioning/utils/comm.py], the number of cooperating
    processes, 1 in single-process mode. *)
Definition get_world_size (w : world) : nat := S (length (peers w)).

(** Modelled from the spec: [is_main_process] of
    [image_captioning/utils/comm.py]; rank 0 is the designated root. *)
Definition is_main_process (w : world) : bool := Nat.eqb (rank w) 0.

(** Modelled from the spec: [synchronize] of
    [image_captioning/utils/comm.py], the barrier; a no-op when the
    world size is 1. Blocking is not observable from one process. *)
Definition synchronize (w : world) : M unit :=
  if Nat.ltb (get_world_size w) 2 then ret tt else emit EvBarrier.

(** Modelled from the spec: [all_gather] of
    [image_captioning/utils/comm.py]; the root receives every process's
    object in rank order, its own included, the others receive the empty
    sequence. *)
Definition all_gather (w : world) (data : value) : M (list value) :=
  emit EvAllGather ;;;
  if is_main_process w then ret (data :: map peer_predictions (peers w))
  else ret [].

(** [torch.distributed.reduce(tensor, dst=0)]: the tensor of the root
    becomes the sum over the group as the backend computes it; the tensor
    of another process holds what the backend leaves in it. Anything but
    a tensor is refused. *)
Definition dist_reduce (w : world) (loss : value) : M value :=
  match loss with
  | VTensor x =>
    emit EvDistReduce ;;;
    if Nat.eqb (rank w) 0
    then ret (VTensor (reduce_sum (arith w) (contributions w x)))
    else ret (VTensor (reduce_elsewhere (arith w) (rank w) (contributions w x)))
  | _ => raise NotATensor
  end.

(** [loss /= world_size] *)
Definition idiv (w : world) (loss : value) (n : nat) : outcome value :=
  match loss with
  | VTensor x => Ok (VTensor (tensor_div (arith w) x n))
  | VFloat x =>
    match truediv x n with Ok y => Ok (VFloat y) | Raise e => Raise e end
  | _ => Raise TypeError
  end.

(** ** [reduce_loss] *)

Definition reduce_loss (w : world) (loss : value) : M value :=
  let world_size := get_world_size w in
  if Nat.ltb world_size 2 then ret loss
  else
    let* loss := dist_reduce w loss in
    if Nat.eqb (rank w) 0 then lift (idiv w loss world_size) else ret loss.

(** ** Dictionaries *)

Fixpoint dict_get (d : list (atom * value)) (k : atom) : option value :=
  match d with
  | [] => None
  | (k', v) :: rest => if decide (k' = k) then Some v else dict_get rest k
  end.

(** [d[k] = v]: an existing key keeps its place. *)
Fixpoint dict_set (d : list (atom * value)) (k : atom) (v : value)
    : list (atom * value) :=
  match d with
  | [] => [(k, v)]
  | (k', v') :: rest =>
    if decide (k' = k) then (k, v) :: rest else (k', v') :: dict_set rest k v
  end.

Fixpoint chars (s : string) : list value :=
  match s with
  | EmptyString => []
  | String c rest => VStr (String c EmptyString) :: chars rest
  end.

(** What a [for] loop over the value yields: the elements of a list, the
    keys of a dictionary, the characters of a string. *)
Definition iterate (v : value) : outcome (list value) :=
  match v with
  | VList l => Ok l
  | VDict d => Ok (map (λ kv, VAtom kv.1) d)
  | VAtom (AStr s) => Ok (chars s)
  | _ => Raise TypeError
  end.

(** The value as a dictionary key. Lists and dictionaries are unhashable;
    floats and tensors never occur as keys here and are refused too. *)
Definition as_key (v : value) : outcome atom :=
  match v with
  | VAtom a => Ok a
  | _ => Raise TypeError
  end.

(** One element of the sequence given to [dict.update]: it must itself
    yield exactly two values, the key and the value to store. *)
Definition update_pair (d : list (atom * value)) (item : value)
    : outcome (list (atom * value)) :=
  match iterate item with
  | Raise e => Raise e
  | Ok [k; v] =>
    match as_key k with
    | Ok a => Ok (dict_set d a v)
    | Raise e => Raise e
    end
  | Ok _ => Raise ValueError
  end.

Fixpoint update_pairs (d : list (atom * value)) (items : list value)
    : outcome (list (atom * value)) :=
  match items with
  | [] => Ok d
  | item :: rest =>
    match update_pair d item with
    | Ok d' => update_pairs d' rest
    | Raise e => Raise e
    end
  end.

(** [d.update(other)]: [other] is a mapping, whose items are stored one
    by one, or a sequence of key/value pairs. *)
Definition update (d : list (atom * value)) (other : value)
    : outcome (list (atom * value)) :=
  match other with
  | VDict d' => Ok (fold_left (λ acc kv, dict_set acc kv.1 kv.2) d' d)
  | _ =>
    match iterate other with
    | Ok items => update_pairs d items
    | Raise e => Raise e
    end
  end.

(** [for p in all_predictions: predictions.update(p)] *)
Fixpoint update_all (d : list (atom * value)) (all_predictions : list value)
    : outcome (list (atom * value)) :=
  match all_predictions with
  | [] => Ok d
  | p :: rest =>
    match update d p with
    | Ok d' => update_all d' rest
    | Raise e => Raise e
    end
  end.

(** ** [_accumulate_predictions_from_multiple_gpus] *)

Definition _accumulate_predictions_from_multiple_gpus
    (w : world) (predictions_per_gpu : value) : M value :=
  let* all_predictions := all_gather w predictions_per_gpu in
  if negb (is_main_process w) then ret VNone
  else
    let* d := lift (update_all [] all_predictions) in
    ret (VDict d).

(** ** [inference] *)

(** The external scorer [coco_eval(predictions, dataset_name)]. *)
Definition coco_eval (w : world) (predictions : value) (dataset_name : string)
    : M value :=
  emit EvScore ;;;
  lift (scorer w predictions dataset_name).

Definition inference (w : world) (data_loader : list batch)
    (dataset_name : string) (beam_size : Z) : M (value * value * value) :=
  let* '(predictions, loss) :=
    call F_compute_on_dataset (compute_on_dataset data_loader beam_size) in
  let* loss_reduced := call F_reduce_loss (reduce_loss w (VFloat loss)) in
  call F_synchronize (synchronize w) ;;;
  let* predictions :=
    call F_accumulate
      (_accumulate_predictions_from_multiple_gpus w (VList predictions)) in
  if negb (is_main_process w) then ret (VNone, VNone, VNone)
  else
    let* metrics_score := call F_coco_eval (coco_eval w predictions dataset_name) in
    ret (loss_reduced, predictions, metrics_score).

(** ** The driver: [test] of [tools/test_net.py] *)

Fixpoint serializable (v : value) : bool :=
  match v with
  | VAtom _ | VFloat _ => true
  | VTensor _ => false
  | VList l => forallb serializable l
  | VDict d => forallb (λ kv, let '(_, x) := kv in serializable x) d
  end.

(** [json.dump(predictions, open(file_name, 'w'))] *)
Definition json_dump (v : value) : M unit :=
  emit EvOpenFile ;;;
  if serializable v then emit (EvJsonDump v) else raise TypeError.

(** [scores.items()] *)
Definition items (scores : value) : outcome (list (atom * value)) :=
  match scores with
  | VDict d => Ok d
  | _ => Raise AttributeError
  end.

(** ["metric {}: {:.4f}".format(metric, score)] *)
Definition format_score (score : value) : outcome unit :=
  match score with
  | VFloat _ | VTensor _ | VAtom (AInt _) => Ok tt
  | VAtom (AStr _) => Raise ValueError
  | _ => Raise TypeError
  end.

Fixpoint log_scores (l : list (atom * value)) : M unit :=
  match l with
  | [] => ret tt
  | (_, score) :: rest =>
    lift (format_score score) ;;; emit EvLog ;;; log_scores rest
  end.

(** [pred[name]] with a string [name]. *)
Definition subscript (pred : value) (name : string) : outcome value :=
  match pred with
  | VDict d =>
    match dict_get d (AStr name) with
    | Some v => Ok v
    | None => Raise KeyError
    end
  | _ => Raise TypeError
  end.

Fixpoint log_predictions (l : list value) : M unit :=
  match l with
  | [] => ret tt
  | pred :: rest =>
    lift (subscript pred "image_id") ;;;
    lift (subscript pred "caption") ;;;
    emit EvLog ;;;
    log_predictions rest
  end.

(** What [test] does once [inference] has returned. *)
Definition report (returned : value * value * value) (verbose : bool) : M unit :=
  let '(loss, predictions, scores) := returned in
  json_dump predictions ;;;
  emit EvLog ;;;
  let* l := lift (items scores) in
  log_scores l ;;;
  if verbose
  then let* preds := lift (iterate predictions) in log_predictions preds
  else ret tt.

Definition test (w : world) (data_loader : list batch) (dataset : string)
    (beam_size : Z) (verbose : bool) : M unit :=
  let* returned := inference w data_loader dataset beam_size in
  report returned verbose.

(** ** Specification-side notions *)

(** The (itemId, caption) observations of a shard, batch after batch:
    the [k]-th caption of a batch goes with its [k]-th image id. *)
Definition observations (data_loader : list batch) : list (Z * string) :=
  flat_map (λ b, zip (cocoids b) (sents b)) data_loader.

(** The observations that are the first with their itemId when [pre]
    has been observed before them, in their order. *)
Definition firsts_from (pre obs : list (Z * string)) : list (Z * string) :=
  omap id
    (imap (λ n o, if decide (o.1 ∈ (pre ++ take n obs).*1) then None else Some o)
          obs).

(** The ordered sequence retaining only the first occurrence per itemId:
    an observation is kept when no earlier one has its itemId. *)
Definition first_occurrences (obs : list (Z * string)) : list (Z * string) :=
  firsts_from [] obs.

Definition entry_of (o : Z * string) : value := entry o.1 o.2.

(** The collaborator calls of the batches [i], ..., [i + n - 1]. *)
Fixpoint batch_events (beam_size : Z) (i n : nat) : list event :=
  match n with
  | O => []
  | S n' =>
    [EvForward i; EvCriterion i; EvDecodeSearch i beam_size; EvDecodeSequence i]
      ++ batch_events beam_size (S i) n'
  end.

(** A batch with an image id for each of its captions. *)
Definition indexable (b : batch) : Prop :=
  (length (sents b) ≤ length (cocoids b))%nat.

(** The sum [val_loss_sum] holds after the batches, added in order. *)
Definition loss_sum (data_loader : list batch) : float :=
  fold_left PrimFloat.add (loss_item <$> data_loader) PrimFloat.zero.

(** ** Auxiliary notions and instances *)

(** The first observation carrying the itemId [i]. *)
Definition first_with (i : Z) (obs : list (Z * string)) : option (Z * string) :=
  head (filter (λ o, o.1 = i) obs).

(** [done_ids] holds exactly the itemIds of the observations [pre]. *)
Definition seen (pre : list (Z * string)) (ds : gmap Z Z) : Prop :=
  ∀ z, is_Some (ds !! z) ↔ z ∈ pre.*1.

(** The events of the shard loop: the calls to the model, the criterion
    and the vocabulary. *)
Definition is_inner (e : event) : bool :=
  match e with
  | EvModelEval | EvForward _ | EvCriterion _
  | EvDecodeSearch _ _ | EvDecodeSequence _ => true
  | _ => false
  end.

(** The steps of one call of [inference], in the order of the source. *)
Definition orchestration : list event :=
  [EvCall F_compute_on_dataset; EvReturn F_compute_on_dataset;
   EvCall F_reduce_loss; EvDistReduce; EvReturn F_reduce_loss;
   EvCall F_synchronize; EvBarrier; EvReturn F_synchronize;
   EvCall F_accumulate; EvAllGather; EvReturn F_accumulate;
   EvCall F_coco_eval; EvScore; EvReturn F_coco_eval].

(** The entries and exits of the steps. *)
Definition is_marker (e : event) : bool :=
  match e with
  | EvCall _ | EvReturn _ => true
  | _ => false
  end.

(** Everything but the collaborator calls of the shard loop. *)
Definition is_outer (e : event) : bool := negb (is_inner e).

Ltac sublist_greedy :=
  repeat first [apply sublist_nil | apply sublist_skip | apply sublist_cons].

Ltac order_cases :=
  split; [by eexists|];
  split; [sublist_greedy|];
  let Hres := fresh "Hres" in
  let Hmain := fresh "Hmain" in
  intros ? Hres Hmain;
  first [ discriminate Hres
        | by apply Nat.eqb_eq in Hmain
        | reflexivity ].

(** Storing the items of a mapping one by one. *)
Definition store_all (d' d : list (atom * value)) : list (atom * value) :=
  fold_left (λ acc kv, dict_set acc kv.1 kv.2) d' d.

(** The value a key has in the last of the mappings that hold it. *)
Fixpoint latest (k : atom) (ms : list (list (atom * value))) : option value :=
  match ms with
  | [] => None
  | m :: rest =>
    match latest k rest with
    | Some v => Some v
    | None => dict_get m k
    end
  end.

(** Tensors of binary64 scalars added from rank 0 upwards, the tensor
    of a process other than the root left as it was. *)
Definition binary64_upwards : reduction :=
  {| reduce_sum l :=
       match l with
       | [] => PrimFloat.zero
       | x :: rest => fold_left PrimFloat.add rest x
       end;
     reduce_elsewhere r l := nth r l PrimFloat.zero;
     tensor_div x n := PrimFloat.div x (float_of_nat n) |}.


Definition cat_only : list (atom * value) := [(AInt 1, VStr "a cat")].
Definition dog_and_running : list (atom * value) :=
  [(AInt 1, VStr "a dog"); (AInt 2, VStr "a dog running")].

(** The root of a group of two whose other process hands [dog_and_running]
    to the gather. *)
Definition root_of_two : world :=
  World 0 [Peer PrimFloat.zero (VDict dog_and_running)] (λ _ _, Ok VNone)
        binary64_upwards.

(** A process of rank 1 in a group of two and a shard of one batch. *)
Definition rank_one_of_two : world :=
  World 1 [Peer PrimFloat.zero (VList [])] (λ _ _, Ok (VDict []))
        binary64_upwards.

Definition one_batch : list batch :=
  [Batch 2.0%float ["a cat"] [7]].

(** Items 7, 7, 9 over two batches of unequal size. *)
Definition two_batches : list batch :=
  [Batch 2.0%float ["a cat"] [7];
   Batch 4.0%float ["a dog"; "a bird"] [7; 9]].

(** Per-batch losses 2.0, 4.0, 6.0 on batches of 2, 1 and 3 examples. *)
Definition three_batches : list batch :=
  [Batch 2.0%float ["a"; "b"] [1; 2];
   Batch 4.0%float ["c"] [3];
   Batch 6.0%float ["d"; "e"; "f"] [4; 5; 6]].

(** A batch whose only itemId has been seen in [one_batch]. *)
Definition seen_batch : batch := Batch 4.0%float ["a dog"] [7].

(** A single process with a scorer that returns one metric. *)
Definition single : world :=
  World 0 [] (λ _ _, Ok (VDict [(AStr "CIDEr", VFloat 1.0%float)]))
        binary64_upwards.



(** * The encoder: [image_captioning/modeling/encoder/resnet.py] *)

(** Errors without a trace, for the code that builds the modules. *)
Definition and_then {A B} (o : outcome A) (k : A → outcome B) : outcome B :=
  match o with
  | Ok a => k a
  | Raise e => Raise e
  end.

Notation "'let?' x ':=' o 'in' k" := (and_then o (λ x, k))
  (at level 10, x name, o at level 100, k at level 200) : py_scope.
Notation "'let?' ' p ':=' o 'in' k" := (and_then o (λ p, k))
  (at level 10, p pattern, o at level 100, k at level 200) : py_scope.

(** ** Stage specifications *)

Record StageSpec := {
  index : Z;              (* index of the stage, eg 1, 2, ..., 5 *)
  block_count : Z;        (* number of residual blocks in the stage *)
  return_features : bool  (* return the last feature map from this stage *)
}.

Definition stage_specs (l : list (Z * Z * bool)) : list StageSpec :=
  (λ '(i, c, r), Build_StageSpec i c r) <$> l.

Definition ResNet50StagesTo5 : list StageSpec :=
  stage_specs [(1, 3, false); (2, 4, false); (3, 6, false); (4, 3, true)].

Definition ResNet50StagesTo4 : list StageSpec :=
  stage_specs [(1, 3, false); (2, 4, false); (3, 6, true)].

Definition ResNet101StagesTo5 : list StageSpec :=
  stage_specs [(1, 3, false); (2, 4, false); (3, 23, false); (4, 3, true)].

Definition ResNet101StagesTo4 : list StageSpec :=
  stage_specs [(1, 3, false); (2, 4, false); (3, 23, true)].

(** ** Layers *)

(** A layer is what its constructor is given, with the [requires_grad]
    flag of each of its parameters; the convolutions here have no bias. *)
Record Conv2d := {
  in_channels : Z;
  out_channels : Z;
  kernel_size : Z;
  stride : Z;
  padding : Z;
  groups : Z;
  weight_requires_grad : bool
}.

Record BatchNorm2d := {
  num_features : Z;
  bn_weight_requires_grad : bool;
  bn_bias_requires_grad : bool
}.

(** [torch.nn.Conv2d(...)]: the number of groups must be positive and
    divide the channel counts, and the weight cannot be allocated with a
    negative size; the parameters of a new layer require a gradient. *)
Definition new_Conv2d (in_channels out_channels kernel_size stride padding
    groups : Z) : outcome Conv2d :=
  if decide (groups ≤ 0) then Raise ValueError
  else if decide (in_channels `mod` groups ≠ 0) then Raise ValueError
  else if decide (out_channels `mod` groups ≠ 0) then Raise ValueError
  else if decide (in_channels < 0 ∨ out_channels < 0) then Raise RuntimeError
  else Ok (Build_Conv2d in_channels out_channels kernel_size stride padding
             groups true).

(** [torch.nn.BatchNorm2d(num_features)]; in this file it always follows
    a convolution built with the same number of channels, which has
    already refused a negative one. *)
Definition new_BatchNorm2d (num_features : Z) : BatchNorm2d :=
  Build_BatchNorm2d num_features true true.

(** ** [BottleneckWithBatchNorm] *)

Record Bottleneck := {
  downsample : option (Conv2d * BatchNorm2d);
  conv1 : Conv2d;
  bn1 : BatchNorm2d;
  conv2 : Conv2d;
  bn2 : BatchNorm2d;
  conv3 : Conv2d;
  bn3 : BatchNorm2d
}.

(** [BottleneckWithBatchNorm.__init__] *)
Definition BottleneckWithBatchNorm (in_channels bottleneck_channels
    out_channels num_roups : Z) (stride_in_1x1 : bool) (stride : Z)
    : outcome Bottleneck :=
  let? downsample :=
    if decide (in_channels ≠ out_channels)
    then
      let? c := new_Conv2d in_channels out_channels 1 stride 0 1 in
      Ok (Some (c, new_BatchNorm2d out_channels))
    else Ok None in
  let '(stride_1x1, stride_3x3) :=
    if stride_in_1x1 then (stride, 1) else (1, stride) in
  let? conv1 := new_Conv2d in_channels bottleneck_channels 1 stride_1x1 0 1 in
  let bn1 := new_BatchNorm2d bottleneck_channels in
  let? conv2 :=
    new_Conv2d bottleneck_channels bottleneck_channels 3 stride_3x3 1 num_roups in
  let bn2 := new_BatchNorm2d bottleneck_channels in
  let? conv3 := new_Conv2d bottleneck_channels out_channels 1 1 0 1 in
  let bn3 := new_BatchNorm2d out_channels in
  Ok (Build_Bottleneck downsample conv1 bn1 conv2 bn2 conv3 bn3).

(** ** [_make_stage] *)

(** The loop [for _ in range(block_count)] with [n] rounds to go. *)
Fixpoint make_blocks
    (transformation_module : Z → Z → Z → Z → bool → Z → outcome Bottleneck)
    (n : nat) (in_channels bottleneck_channels out_channels num_groups : Z)
    (stride_in_1x1 : bool) (stride : Z) : outcome (list Bottleneck) :=
  match n with
  | O => Ok []
  | S n' =>
    let? block :=
      transformation_module in_channels bottleneck_channels out_channels
        num_groups stride_in_1x1 stride in
    let? blocks :=
      make_blocks transformation_module n' out_channels bottleneck_channels
        out_channels num_groups stride_in_1x1 1 in
    Ok (block :: blocks)
  end.

Definition _make_stage
    (transformation_module : Z → Z → Z → Z → bool → Z → outcome Bottleneck)
    (in_channels bottleneck_channels out_channels block_count num_groups : Z)
    (stride_in_1x1 : bool) (first_stride : Z) : outcome (list Bottleneck) :=
  make_blocks transformation_module (Z.to_nat block_count) in_channels
    bottleneck_channels out_channels num_groups stride_in_1x1 first_stride.

(** ** [StemWithBatchNorm] *)

(** The entries of the configuration that the encoder reads. *)
Record cfg := {
  STEM_FUNC : string;
  CONV_BODY : string;
  TRANS_FUNC : string;
  NUM_GROUPS : Z;
  WIDTH_PER_GROUP : Z;
  STEM_OUT_CHANNELS : Z;
  RES2_OUT_CHANNELS : Z;
  STRIDE_IN_1X1 : bool;
  FREEZE_CONV_BODY_AT : Z;
  ATT_SIZE : Z
}.

Record Stem := {
  stem_conv1 : Conv2d;
  stem_bn1 : BatchNorm2d
}.

(** [StemWithBatchNorm.__init__] *)
Definition StemWithBatchNorm (c : cfg) : outcome Stem :=
  let out_channels := STEM_OUT_CHANNELS c in
  let? conv1 := new_Conv2d 3 out_channels 7 2 3 1 in
  Ok (Build_Stem conv1 (new_BatchNorm2d out_channels)).

(** ** The registries *)

Definition _TRANSFORMATION_MODULES
    : gmap string (Z → Z → Z → Z → bool → Z → outcome Bottleneck) :=
  {[ "BottleneckWithBatchNorm" := BottleneckWithBatchNorm ]}.

Definition _STEM_MODULES : gmap string (cfg → outcome Stem) :=
  {[ "StemWithBatchNorm" := StemWithBatchNorm ]}.

Definition _STAGE_SPECS : gmap string (list StageSpec) :=
  <[ "R-50-C4" := ResNet50StagesTo4 ]>
  (<[ "R-50-C5" := ResNet50StagesTo5 ]>
  (<[ "R-101-C5" := ResNet101StagesTo5 ]>
  (<[ "R-101-C4" := ResNet101StagesTo4 ]> ∅))).

(** [registry[name]] *)
Definition getitem {A} (registry : gmap string A) (name : string) : outcome A :=
  match registry !! name with
  | Some a => Ok a
  | None => Raise KeyError
  end.

(** ** [ResNet] *)

Record ResNet := {
  self_stem : Stem;
  self_modules : gmap string (list Bottleneck);  (* the stages added by name *)
  self_stages : list string;
  self_return_features : gmap string bool;
  self_att_size : Z
}.

(** ["layer" + str(index)] *)
Definition layer_name (index : Z) : string := "layer" +:+ pretty index.

(** The loop [for stage_spec in stage_specs] of [ResNet.__init__]. The
    registered specifications have indices from 1 on, for which
    [2 ** (index - 1)] is the integer power. *)
Fixpoint add_stages
    (transformation_module : Z → Z → Z → Z → bool → Z → outcome Bottleneck)
    (c : cfg) (specs : list StageSpec) (in_channels : Z) (self : ResNet)
    : outcome ResNet :=
  match specs with
  | [] => Ok self
  | stage_spec :: rest =>
    let num_groups := NUM_GROUPS c in
    let stage2_bottleneck_channels := num_groups * WIDTH_PER_GROUP c in
    let stage2_out_channels := RES2_OUT_CHANNELS c in
    let name := layer_name (index stage_spec) in
    let stage2_relative_factcor := 2 ^ (index stage_spec - 1) in
    let bottleneck_channels :=
      stage2_bottleneck_channels * stage2_relative_factcor in
    let out_channels := stage2_out_channels * stage2_relative_factcor in
    let? module :=
      _make_stage transformation_module in_channels bottleneck_channels
        out_channels (block_count stage_spec) num_groups (STRIDE_IN_1X1 c)
        ((if decide (1 < index stage_spec) then 1 else 0) + 1) in
    add_stages transformation_module c rest out_channels
      {| self_stem := self_stem self;
         self_modules := <[name := module]> (self_modules self);
         self_stages := self_stages self ++ [name];
         self_return_features :=
           <[name := return_features stage_spec]> (self_return_features self);
         self_att_size := self_att_size self |}
  end.

(** [for p in m.parameters(): p.requires_grad = False] on the layers. *)
Definition freeze_conv (c : Conv2d) : Conv2d :=
  Build_Conv2d (in_channels c) (out_channels c) (kernel_size c) (stride c)
    (padding c) (groups c) false.

Definition freeze_bn (b : BatchNorm2d) : BatchNorm2d :=
  Build_BatchNorm2d (num_features b) false false.

Definition freeze_block (b : Bottleneck) : Bottleneck :=
  {| downsample :=
       match downsample b with
       | Some (c, n) => Some (freeze_conv c, freeze_bn n)
       | None => None
       end;
     conv1 := freeze_conv (conv1 b); bn1 := freeze_bn (bn1 b);
     conv2 := freeze_conv (conv2 b); bn2 := freeze_bn (bn2 b);
     conv3 := freeze_conv (conv3 b); bn3 := freeze_bn (bn3 b) |}.

Definition freeze_stem (s : Stem) : Stem :=
  Build_Stem (freeze_conv (stem_conv1 s)) (freeze_bn (stem_bn1 s)).

(** The body of the loop of [_freeze_encoder] for one [stage_index]. *)
Definition freeze_one (self : ResNet) (stage_index : Z) : outcome ResNet :=
  if decide (stage_index = 0)
  then Ok {| self_stem := freeze_stem (self_stem self);
             self_modules := self_modules self;
             self_stages := self_stages self;
             self_return_features := self_return_features self;
             self_att_size := self_att_size self |}
  else
    match self_modules self !! layer_name stage_index with
    | None => Raise AttributeError
    | Some m =>
      Ok {| self_stem := self_stem self;
            self_modules :=
              <[layer_name stage_index := freeze_block <$> m]> (self_modules self);
            self_stages := self_stages self;
            self_return_features := self_return_features self;
            self_att_size := self_att_size self |}
    end.

Fixpoint freeze_each (self : ResNet) (stage_indices : list Z)
    : outcome ResNet :=
  match stage_indices with
  | [] => Ok self
  | stage_index :: rest =>
    let? self' := freeze_one self stage_index in
    freeze_each self' rest
  end.

(** [ResNet._freeze_encoder]: [for stage_index in range(freeze_at)] *)
Definition _freeze_encoder (self : ResNet) (freeze_at : Z) : outcome ResNet :=
  freeze_each self (seqZ 0 freeze_at).

(** [ResNet.__init__] *)
Definition ResNet_init (c : cfg) : outcome ResNet :=
  let? stem_module := getitem _STEM_MODULES (STEM_FUNC c) in
  let? specs := getitem _STAGE_SPECS (CONV_BODY c) in
  let? transformation_module :=
    getitem _TRANSFORMATION_MODULES (TRANS_FUNC c) in
  let? stem := stem_module c in
  let? self :=
    add_stages transformation_module c specs (STEM_OUT_CHANNELS c)
      {| self_stem := stem; self_modules := ∅; self_stages := [];
         self_return_features := ∅; self_att_size := 0 |} in
  let? self := _freeze_encoder self (FREEZE_CONV_BODY_AT c) in
  Ok {| self_stem := self_stem self;
        self_modules := self_modules self;
        self_stages := self_stages self;
        self_return_features := self_return_features self;
        self_att_size := ATT_SIZE c |}.

(** ** [forward] *)

(** The tensor operations that the [forward] methods call, on tensors of
    an arbitrary kind. *)
Class Backend (T : Type) := {
  apply_conv : Conv2d → T → outcome T;
  apply_bn : BatchNorm2d → T → outcome T;
  relu_ : T → outcome T;
  iadd : T → T → outcome T;                        (* out += residual *)
  max_pool2d : T → Z → Z → Z → outcome T;          (* kernel_size, stride, padding *)
  adaptive_avg_pool2d : T → Z → Z → outcome T;
  mean : T → Z → outcome T                         (* x.mean(dim) *)
}.

(** [BottleneckWithBatchNorm.forward] *)
Definition Bottleneck_forward {T} `{Backend T} (self : Bottleneck) (x : T)
    : outcome T :=
  let residual := x in
  let? out := apply_conv (conv1 self) x in
  let? out := apply_bn (bn1 self) out in
  let? out := relu_ out in
  let? out := apply_conv (conv2 self) out in
  let? out := apply_bn (bn2 self) out in
  let? out := relu_ out in
  let? out := apply_conv (conv3 self) out in
  let? out := apply_bn (bn3 self) out in
  let? residual :=
    match downsample self with
    | Some (c, n) => let? r := apply_conv c x in apply_bn n r
    | None => Ok residual
    end in
  let? out := iadd out residual in
  relu_ out.

(** [StemWithBatchNorm.forward] *)
Definition Stem_forward {T} `{Backend T} (self : Stem) (x : T) : outcome T :=
  let? x := apply_conv (stem_conv1 self) x in
  let? x := apply_bn (stem_bn1 self) x in
  let? x := relu_ x in
  max_pool2d x 3 2 1.

(** The [nn.Sequential] of the blocks applied to [x]. *)
Fixpoint Sequential_forward {T} `{Backend T} (blocks : list Bottleneck) (x : T)
    : outcome T :=
  match blocks with
  | [] => Ok x
  | block :: rest =>
    let? x := Bottleneck_forward block x in
    Sequential_forward rest x
  end.

(** The loop [for stage_name in self.stages] of [ResNet.forward]. *)
Fixpoint forward_stages {T} `{Backend T} (self : ResNet)
    (stages : list string) (x : T) (outputs : list T) : outcome (T * list T) :=
  match stages with
  | [] => Ok (x, outputs)
  | stage_name :: rest =>
    match self_modules self !! stage_name with
    | None => Raise AttributeError
    | Some m =>
      let? x := Sequential_forward m x in
      match self_return_features self !! stage_name with
      | None => Raise KeyError
      | Some true => forward_stages self rest x (outputs ++ [x])
      | Some false => forward_stages self rest x outputs
      end
    end
  end.

(** [ResNet.forward] *)
Definition ResNet_forward {T} `{Backend T} (self : ResNet) (x : T)
    : outcome (T * T) :=
  let? x := Stem_forward (self_stem self) x in
  let? '(_, outputs) := forward_stages self (self_stages self) x [] in
  match last outputs with
  | None => Raise IndexError
  | Some feature =>
    let? att :=
      adaptive_avg_pool2d feature (self_att_size self) (self_att_size self) in
    let? m := mean feature 3 in
    let? fc := mean m 2 in
    Ok (fc, att)
  end.

(** ** What a well-formed encoder is *)

(** A block that takes [cin] channels to [cout] channels with the stride
    [s]: each layer has the channels of the layer before it, the stride
    is carried by one of the first two convolutions, and the shortcut
    does to the channels and to the stride what the main branch does. *)
Definition block_ok (cin cout s : Z) (b : Bottleneck) : Prop :=
  in_channels (conv1 b) = cin
  ∧ num_features (bn1 b) = out_channels (conv1 b)
  ∧ in_channels (conv2 b) = out_channels (conv1 b)
  ∧ out_channels (conv2 b) = in_channels (conv2 b)
  ∧ num_features (bn2 b) = out_channels (conv2 b)
  ∧ in_channels (conv3 b) = out_channels (conv2 b)
  ∧ out_channels (conv3 b) = cout
  ∧ num_features (bn3 b) = cout
  ∧ (kernel_size (conv1 b), padding (conv1 b)) = (1, 0)
  ∧ (kernel_size (conv2 b), padding (conv2 b)) = (3, 1)
  ∧ (kernel_size (conv3 b), padding (conv3 b), stride (conv3 b)) = (1, 0, 1)
  ∧ ((stride (conv1 b), stride (conv2 b)) = (s, 1)
     ∨ (stride (conv1 b), stride (conv2 b)) = (1, s))
  ∧ match downsample b with
    | Some (c, n) =>
      in_channels c = cin ∧ out_channels c = cout ∧ num_features n = cout
      ∧ (kernel_size c, padding c, stride c) = (1, 0, s)
    | None => cin = cout ∧ s = 1
    end.

(** Where a block has its shortcut and its stride: a shortcut
    convolution exactly when the channel counts differ, the stride in the
    first convolution when [stride_in_1x1] is set and in the second
    otherwise. *)
Definition block_layout (cin cout : Z) (stride_in_1x1 : bool) (s : Z)
    (b : Bottleneck) : Prop :=
  (downsample b = None ↔ cin = cout)
  ∧ (stride (conv1 b), stride (conv2 b))
    = (if stride_in_1x1 then (s, 1) else (1, s)).

(** A stage: its first block changes the channels and carries the stride,
    the others keep both. *)
Definition stage_ok (cin cout s : Z) (blocks : list Bottleneck) : Prop :=
  match blocks with
  | [] => cin = cout ∧ s = 1
  | b :: rest => block_ok cin cout s b ∧ Forall (block_ok cout cout 1) rest
  end.

(** The [requires_grad] flags of the parameters of the modules. *)
Definition conv_flags (c : Conv2d) : list bool := [weight_requires_grad c].

Definition bn_flags (n : BatchNorm2d) : list bool :=
  [bn_weight_requires_grad n; bn_bias_requires_grad n].

Definition block_flags (b : Bottleneck) : list bool :=
  match downsample b with
  | Some (c, n) => conv_flags c ++ bn_flags n
  | None => []
  end
  ++ conv_flags (conv1 b) ++ bn_flags (bn1 b)
  ++ conv_flags (conv2 b) ++ bn_flags (bn2 b)
  ++ conv_flags (conv3 b) ++ bn_flags (bn3 b).

Definition stage_flags (m : list Bottleneck) : list bool :=
  concat (block_flags <$> m).

Definition stem_flags (s : Stem) : list bool :=
  conv_flags (stem_conv1 s) ++ bn_flags (stem_bn1 s).

(** The stems, widths and bodies for which the properties are stated:
    registered names and positive sizes. *)
Definition valid_cfg (c : cfg) : Prop :=
  STEM_FUNC c = "StemWithBatchNorm"
  ∧ TRANS_FUNC c = "BottleneckWithBatchNorm"
  ∧ is_Some (_STAGE_SPECS !! CONV_BODY c)
  ∧ 0 < NUM_GROUPS c
  ∧ 0 < WIDTH_PER_GROUP c
  ∧ 0 < STEM_OUT_CHANNELS c
  ∧ 0 < RES2_OUT_CHANNELS c.

(** The width of the feature map after the stage of index [i]. *)
Definition stage_out_channels (c : cfg) (i : Z) : Z :=
  RES2_OUT_CHANNELS c * 2 ^ (i - 1).

(** The stride of the first block of the stage of index [i]. *)
Definition stage_stride (i : Z) : Z := if decide (1 < i) then 2 else 1.

(** The stages of the specifications are in the encoder, one after the
    other from [cin] channels on: each has its blocks, takes the width of
    the stage before it to its own, and has its [return_features] flag. *)
Fixpoint stages_ok (c : cfg) (self : ResNet) (specs : list StageSpec)
    (cin : Z) : Prop :=
  match specs with
  | [] => True
  | spec :: rest =>
    (∃ m,
       self_modules self !! layer_name (index spec) = Some m
       ∧ length m = Z.to_nat (block_count spec)
       ∧ stage_ok cin (stage_out_channels c (index spec))
           (stage_stride (index spec)) m)
    ∧ self_return_features self !! layer_name (index spec)
      = Some (return_features spec)
    ∧ stages_ok c self rest (stage_out_channels c (index spec))
  end.

(** Specifications as the registered ones are: indices 1, 2, ... in
    order, at least one block per stage, and the features returned by the
    last stage only. *)
Definition regular (specs : list StageSpec) : Prop :=
  index <$> specs = seqZ 1 (Z.of_nat (length specs))
  ∧ Forall (λ spec, 0 < block_count spec) specs
  ∧ return_features <$> specs
    = replicate (pred (length specs)) false ++ [true].

(** The stem and then the stages, one after the other. *)
Fixpoint body_stages {T} `{Backend T} (self : ResNet) (stages : list string)
    (x : T) : outcome T :=
  match stages with
  | [] => Ok x
  | stage_name :: rest =>
    match self_modules self !! stage_name with
    | None => Raise AttributeError
    | Some m =>
      let? x := Sequential_forward m x in
      body_stages self rest x
    end
  end.

Definition body_forward {T} `{Backend T} (self : ResNet) (x : T) : outcome T :=
  let? x := Stem_forward (self_stem self) x in
  body_stages self (self_stages self) x.

(** [self] is [self0] with the stem, when [0 < k], and the stages of
    the indices from 1 to [k - 1] frozen. *)
Definition frozen_below (k : Z) (self0 self : ResNet) : Prop :=
  self_stem self
    = (if decide (0 < k) then freeze_stem (self_stem self0) else self_stem self0)
  ∧ (∀ i, self_modules self !! layer_name i
          = if decide (1 ≤ i < k)
            then fmap freeze_block <$> self_modules self0 !! layer_name i
            else self_modules self0 !! layer_name i)
  ∧ self_stages self = self_stages self0
  ∧ self_return_features self = self_return_features self0
  ∧ self_att_size self = self_att_size self0.

(** ** Instances for the encoder and the further properties *)

(** A batch with two captions and one image id. *)
Definition short_batch : batch := Batch 4.0%float ["a dog"; "a bird"] [7].

(** ResNet-50 up to stage 4 with the usual widths, frozen below stage 2. *)
Definition r50_c4 : cfg :=
  {| STEM_FUNC := "StemWithBatchNorm"; CONV_BODY := "R-50-C4";
     TRANS_FUNC := "BottleneckWithBatchNorm";
     NUM_GROUPS := 1; WIDTH_PER_GROUP := 64;
     STEM_OUT_CHANNELS := 64; RES2_OUT_CHANNELS := 256;
     STRIDE_IN_1X1 := true; FREEZE_CONV_BODY_AT := 2; ATT_SIZE := 14 |}.

(** The same with a conv body that is not registered. *)
Definition r18 : cfg :=
  {| STEM_FUNC := "StemWithBatchNorm"; CONV_BODY := "R-18";
     TRANS_FUNC := "BottleneckWithBatchNorm";
     NUM_GROUPS := 1; WIDTH_PER_GROUP := 64;
     STEM_OUT_CHANNELS := 64; RES2_OUT_CHANNELS := 256;
     STRIDE_IN_1X1 := true; FREEZE_CONV_BODY_AT := 2; ATT_SIZE := 14 |}.

(** The same frozen below stage 5, with three stages only. *)
Definition r50_c4_frozen_5 : cfg :=
  {| STEM_FUNC := "StemWithBatchNorm"; CONV_BODY := "R-50-C4";
     TRANS_FUNC := "BottleneckWithBatchNorm";
     NUM_GROUPS := 1; WIDTH_PER_GROUP := 64;
     STEM_OUT_CHANNELS := 64; RES2_OUT_CHANNELS := 256;
     STRIDE_IN_1X1 := true; FREEZE_CONV_BODY_AT := 5; ATT_SIZE := 14 |}.

(** An encoder with a stem and no stage. *)
Definition stem_only : ResNet :=
  {| self_stem := Build_Stem (Build_Conv2d 3 64 7 2 3 1 true) (new_BatchNorm2d 64);
     self_modules := ∅; self_stages := []; self_return_features := ∅;
     self_att_size := 14 |}.

(** An encoder with a stem and one stage of one block that does not
    return its features. *)
Definition one_silent_stage : ResNet :=
  {| self_stem := Build_Stem (Build_Conv2d 3 64 7 2 3 1 true) (new_BatchNorm2d 64);
     self_modules :=
       {[ "layer1" :=
            [ {| downsample := None;
                 conv1 := Build_Conv2d 64 16 1 1 0 1 true;
                 bn1 := new_BatchNorm2d 16;
                 conv2 := Build_Conv2d 16 16 3 1 1 1 true;
                 bn2 := new_BatchNorm2d 16;
                 conv3 := Build_Conv2d 16 64 1 1 0 1 true;
                 bn3 := new_BatchNorm2d 64 |} ] ]};
     self_stages := ["layer1"];
     self_return_features := {[ "layer1" := false ]};
     self_att_size := 14 |}.

(** Tensors reduced to the number of operations that produced them. *)
Definition counting : Backend nat :=
  {| apply_conv _ x := Ok (S x);
     apply_bn _ x := Ok (S x);
     relu_ x := Ok (S x);
     iadd x y := Ok (S (x + y))%nat;
     max_pool2d x _ _ _ := Ok (S x);
     adaptive_avg_pool2d x _ _ := Ok (S x);
     mean x _ := Ok (S x) |}.

(** * Properties *)

(** ** The monad *)

Lemma bind_Ok {A B} (m : M A) (k : A → M B) t a :
  m = (t, Ok a) → bind m k = (t ++ trace (k a), result (k a)).
Proof. intros ->. reflexivity. Qed.

Lemma bind_Raise {A B} (m : M A) (k : A → M B) t e :
  m = (t, Raise e) → bind m k = (t, Raise e).
Proof. intros ->. reflexivity. Qed.

(** ** First occurrences *)

Lemma firsts_from_nil pre : firsts_from pre [] = [].
Proof. reflexivity. Qed.

Lemma firsts_from_cons pre o obs :
  firsts_from pre (o :: obs) =
    (if decide (o.1 ∈ pre.*1) then [] else [o]) ++ firsts_from (pre ++ [o]) obs.
Proof.
  unfold firsts_from. rewrite imap_cons. simpl.
  rewrite app_nil_r.
  assert (Hext : imap ((λ n o0, if decide (o0.1 ∈ (pre ++ take n (o :: obs)).*1)
                                 then None else Some o0) ∘ S) obs
               = imap (λ n o0, if decide (o0.1 ∈ ((pre ++ [o]) ++ take n obs).*1)
                                 then None else Some o0) obs).
  { apply imap_ext. intros n x _. simpl. by rewrite <- app_assoc. }
  rewrite Hext. by destruct (decide (o.1 ∈ pre.*1)).
Qed.

Lemma firsts_from_ids pre obs i :
  i ∈ (firsts_from pre obs).*1 ↔ i ∈ obs.*1 ∧ i ∉ pre.*1.
Proof.
  revert pre. induction obs as [|o obs IH]; intros pre.
  - rewrite firsts_from_nil. simpl. split; [by intros ?%elem_of_nil|].
    by intros [?%elem_of_nil _].
  - rewrite firsts_from_cons, fmap_app, elem_of_app, IH.
    rewrite fmap_app, elem_of_app, fmap_cons, !elem_of_cons.
    destruct (decide (o.1 ∈ pre.*1)) as [Hin|Hout]; simpl.
    + rewrite !elem_of_cons, !elem_of_nil. split.
      * intros [[]|[? ?]]. split; [by right|]. intros ?. tauto.
      * intros [[->|?] ?]; [done|]. right. split; [done|].
        intros [?|[->|[]]]; done.
    + rewrite !elem_of_cons, !elem_of_nil. split.
      * intros [[->|[]]|[? ?]]; [split; [by left|done]|].
        split; [by right|]. tauto.
      * intros [[->|?] ?]; [by left; left|].
        destruct (decide (i = o.1)) as [->|?]; [by left; left|].
        right. split; [done|]. intros [?|[?|[]]]; done.
Qed.

Lemma firsts_from_NoDup pre obs : NoDup (firsts_from pre obs).*1.
Proof.
  revert pre. induction obs as [|o obs IH]; intros pre.
  - constructor.
  - rewrite firsts_from_cons.
    destruct (decide (o.1 ∈ pre.*1)); simpl; [apply IH|].
    constructor; [|apply IH].
    rewrite firsts_from_ids, fmap_app. set_solver.
Qed.

Lemma first_with_cons i o obs :
  first_with i (o :: obs) = if decide (o.1 = i) then Some o else first_with i obs.
Proof.
  unfold first_with. rewrite filter_cons. by destruct (decide (o.1 = i)).
Qed.

Lemma firsts_from_caption pre obs i c :
  (i, c) ∈ firsts_from pre obs ↔ (i ∉ pre.*1) ∧ first_with i obs = Some (i, c).
Proof.
  revert pre. induction obs as [|o obs IH]; intros pre.
  - rewrite firsts_from_nil. unfold first_with. simpl. set_solver.
  - rewrite firsts_from_cons, elem_of_app, IH, first_with_cons, fmap_app.
    destruct o as [j d]. simpl.
    destruct (decide (j = i)) as [->|Hne].
    + destruct (decide (i ∈ pre.*1)); split.
      * intros [H|[H _]]; [by apply elem_of_nil in H|]. set_solver.
      * intros [H _]. done.
      * intros [H|[H _]]; [|set_solver].
        apply list_elem_of_singleton in H. by inversion H.
      * intros [_ H]. inversion H. left. by apply list_elem_of_singleton.
    + destruct (decide (j ∈ pre.*1)); split.
      * intros [H|[H ?]]; [by apply elem_of_nil in H|]. set_solver.
      * intros [H ?]. right. set_solver.
      * intros [H|[H ?]]; [|set_solver].
        apply list_elem_of_singleton in H. congruence.
      * intros [H ?]. right. set_solver.
Qed.

(** ** The inner loop *)

Lemma seen_empty : seen [] ∅.
Proof. intros z. rewrite lookup_empty. simpl. split; [by intros [? ?]|set_solver]. Qed.

Lemma seen_insert pre ds id sent :
  seen pre ds → seen (pre ++ [(id, sent)]) (<[id := 0]> ds).
Proof.
  intros H z. rewrite fmap_app, elem_of_app, <- (H z). simpl.
  rewrite list_elem_of_singleton.
  destruct (decide (id = z)) as [->|Hne].
  - rewrite lookup_insert_eq. split; [by right|by eexists].
  - rewrite lookup_insert_ne by done. split; [by left|]. by intros [?|?].
Qed.

Lemma seen_again pre ds id sent :
  seen pre ds → is_Some (ds !! id) → seen (pre ++ [(id, sent)]) ds.
Proof.
  intros H Hin z. rewrite fmap_app, elem_of_app, <- (H z). simpl.
  rewrite list_elem_of_singleton. split; [by left|]. by intros [?| ->].
Qed.

Lemma collect_spec ids ss : ∀ k ps ds pre,
  (k + length ss ≤ length ids)%nat →
  seen pre ds →
  ∃ ds',
    collect ids k ss ps ds
      = Ok (ps ++ (entry_of <$> firsts_from pre (zip (drop k ids) ss)), ds')
    ∧ seen (pre ++ zip (drop k ids) ss) ds'.
Proof.
  induction ss as [|sent ss IH]; intros k ps ds pre Hlen Hseen.
  - exists ds. simpl.
    assert (Hz : zip (drop k ids) ([] : list string) = []) by by destruct (drop k ids).
    rewrite Hz, firsts_from_nil. simpl. by rewrite !app_nil_r.
  - simpl in Hlen.
    destruct (lookup_lt_is_Some_2 ids k) as [id Hid]; [lia|].
    simpl. rewrite Hid, (drop_S _ _ _ Hid). simpl.
    rewrite firsts_from_cons. simpl.
    destruct (ds !! id) as [v|] eqn:Hd.
    + destruct (IH (S k) ps ds (pre ++ [(id, sent)])) as (ds' & Heq & Hs');
        [lia|apply seen_again; eauto|].
      exists ds'. rewrite Heq.
      destruct (decide (id ∈ pre.*1)) as [_|Hout].
      * simpl. split; [done|]. by rewrite <- app_assoc in Hs'.
      * exfalso. apply Hout, Hseen. eauto.
    + destruct (IH (S k) (ps ++ [entry id sent]) (<[id := 0]> ds)
                   (pre ++ [(id, sent)])) as (ds' & Heq & Hs');
        [lia|by apply seen_insert|].
      exists ds'. rewrite Heq.
      destruct (decide (id ∈ pre.*1)) as [Hin|_].
      * apply Hseen in Hin. rewrite Hd in Hin. by destruct Hin.
      * simpl. rewrite <- app_assoc. split; [done|].
        by rewrite <- app_assoc in Hs'.
Qed.

Lemma firsts_from_app pre a b :
  firsts_from pre (a ++ b) = firsts_from pre a ++ firsts_from (pre ++ a) b.
Proof.
  revert pre. induction a as [|o a IH]; intros pre.
  - by rewrite firsts_from_nil, app_nil_r.
  - simpl. rewrite !firsts_from_cons, IH, <- !app_assoc. reflexivity.
Qed.

(** ** The outer loop *)

Lemma step_Ok beam i data st ps ds :
  collect (cocoids data) 0 (sents data) (predictions st) (done_ids st)
    = Ok (ps, ds) →
  step beam i data st
    = ([EvForward i; EvCriterion i; EvDecodeSearch i beam; EvDecodeSequence i],
       Ok (LoopState (PrimFloat.add (val_loss_sum st) (loss_item data))
                     (S (val_loss_count st)) ps ds)).
Proof. intros H. unfold step. rewrite H. reflexivity. Qed.

Lemma step_Raise beam i data st e :
  collect (cocoids data) 0 (sents data) (predictions st) (done_ids st)
    = Raise e →
  step beam i data st
    = ([EvForward i; EvCriterion i; EvDecodeSearch i beam; EvDecodeSequence i],
       Raise e).
Proof. intros H. unfold step. rewrite H. reflexivity. Qed.

Lemma loop_spec beam bs : ∀ i st pre,
  Forall indexable bs →
  seen pre (done_ids st) →
  ∃ ds,
    loop beam i bs st
      = (batch_events beam i (length bs),
         Ok (LoopState
               (fold_left PrimFloat.add (loss_item <$> bs) (val_loss_sum st))
               (val_loss_count st + length bs)
               (predictions st ++ (entry_of <$> firsts_from pre (observations bs)))
               ds))
    ∧ seen (pre ++ observations bs) ds.
Proof.
  induction bs as [|b bs IH]; intros i st pre Hwf Hseen.
  - exists (done_ids st). cbn [loop length fmap list_fmap fold_left batch_events].
    change (observations []) with (@nil (Z * string)).
    rewrite firsts_from_nil, !app_nil_r, Nat.add_0_r.
    split; [by destruct st|done].
  - apply Forall_cons in Hwf as [Hb Hwf].
    destruct (collect_spec (cocoids b) (sents b) 0 (predictions st) (done_ids st) pre)
      as (ds1 & Hc & Hs1); [exact Hb|exact Hseen|].
    rewrite drop_0 in Hc, Hs1.
    set (st1 := LoopState (PrimFloat.add (val_loss_sum st) (loss_item b))
                          (S (val_loss_count st))
                          (predictions st
                             ++ (entry_of <$> firsts_from pre (zip (cocoids b) (sents b))))
                          ds1).
    destruct (IH (S i) st1 (pre ++ zip (cocoids b) (sents b)) Hwf Hs1)
      as (ds & Hl & Hs).
    exists ds. split.
    + cbn [loop]. rewrite (bind_Ok _ _ _ _ (step_Ok _ _ _ _ _ _ Hc)).
      fold st1. rewrite Hl. unfold trace, result. simpl.
      unfold observations. simpl. fold (observations bs).
      rewrite firsts_from_app, fmap_app, <- app_assoc.
      do 3 f_equal. lia.
    + unfold observations. simpl. fold (observations bs).
      by rewrite app_assoc.
Qed.

(** What [compute_on_dataset] does on indexable batches. *)
Lemma compute_on_dataset_spec bs beam :
  Forall indexable bs →
  compute_on_dataset bs beam
    = (EvModelEval :: batch_events beam 0 (length bs),
       match truediv (loss_sum bs) (length bs) with
       | Ok mean => Ok (entry_of <$> first_occurrences (observations bs), mean)
       | Raise e => Raise e
       end).
Proof.
  intros Hwf.
  destruct (loop_spec beam bs 0 init_state [] Hwf seen_empty) as (ds & Hl & _).
  unfold compute_on_dataset. rewrite Hl. unfold bind, lift. simpl.
  fold (loss_sum bs). fold (first_occurrences (observations bs)).
  destruct (truediv (loss_sum bs) (length bs)); simpl; by rewrite ?app_nil_r.
Qed.

Lemma firsts_from_sublist pre obs : firsts_from pre obs `sublist_of` obs.
Proof.
  revert pre. induction obs as [|o obs IH]; intros pre.
  - by rewrite firsts_from_nil.
  - rewrite firsts_from_cons. destruct (decide (o.1 ∈ pre.*1)); simpl.
    + by apply sublist_cons.
    + by apply sublist_skip.
Qed.

Lemma firsts_from_seen pre obs :
  (∀ i, i ∈ obs.*1 → i ∈ pre.*1) → firsts_from pre obs = [].
Proof.
  intros Hsub. destruct (firsts_from pre obs) as [|o l] eqn:E; [done|].
  assert (Hin : o.1 ∈ (firsts_from pre obs).*1) by (rewrite E; simpl; left).
  apply firsts_from_ids in Hin as [Hobs Hpre]. by apply Hsub in Hobs.
Qed.

Lemma observations_app bs bs' :
  observations (bs ++ bs') = observations bs ++ observations bs'.
Proof. unfold observations. apply flat_map_app. Qed.

Lemma observations_ids bs :
  Forall (λ b, length (sents b) = length (cocoids b)) bs →
  (observations bs).*1 = flat_map cocoids bs.
Proof.
  induction 1 as [|b bs Hb _ IH]; [done|].
  unfold observations in *. simpl. rewrite fmap_app, IH. f_equal.
  apply fst_zip. lia.
Qed.

Lemma batch_events_snoc beam n : ∀ i,
  batch_events beam i (S n)
    = batch_events beam i n
        ++ [EvForward (i + n); EvCriterion (i + n);
            EvDecodeSearch (i + n) beam; EvDecodeSequence (i + n)].
Proof.
  induction n as [|n IH]; intros i.
  - simpl. by rewrite Nat.add_0_r.
  - change (batch_events beam i (S (S n)))
      with ([EvForward i; EvCriterion i; EvDecodeSearch i beam; EvDecodeSequence i]
              ++ batch_events beam (S i) (S n)).
    rewrite IH. simpl. by rewrite <- !Nat.add_succ_comm.
Qed.

Lemma loss_sum_snoc bs b :
  loss_sum (bs ++ [b]) = PrimFloat.add (loss_sum bs) (loss_item b).
Proof. unfold loss_sum. by rewrite fmap_app, fold_left_app. Qed.

Lemma truediv_S x n : truediv x (S n) = Ok (PrimFloat.div x (float_of_nat (S n))).
Proof. reflexivity. Qed.

Lemma indexable_of_equal bs :
  Forall (λ b, length (sents b) = length (cocoids b)) bs → Forall indexable bs.
Proof. intros H. eapply Forall_impl; [exact H|]. intros b Hb. unfold indexable. simpl in Hb. by rewrite Hb. Qed.

(** ** The claims about the shard loop *)

(** C3: on every non-empty sequence of batches that carry one itemId per
    decoded caption, the prediction list returned by [compute_on_dataset]
    consists of the entries of the first occurrences of the itemIds, in
    the order in which they are observed: no itemId occurs twice, every
    itemId of the shard occurs, and the caption of an entry is the one
    observed at the first occurrence of its itemId. *)
Theorem compute_on_dataset_first_occurrences bs beam :
  bs ≠ [] →
  Forall (λ b, length (sents b) = length (cocoids b)) bs →
  ∃ kept loss,
    result (compute_on_dataset bs beam) = Ok (entry_of <$> kept, loss)
    ∧ kept = first_occurrences (observations bs)
    ∧ kept `sublist_of` observations bs
    ∧ NoDup kept.*1
    ∧ (∀ i, i ∈ kept.*1 ↔ i ∈ flat_map cocoids bs)
    ∧ (∀ i c, (i, c) ∈ kept ↔ first_with i (observations bs) = Some (i, c)).
Proof.
  intros Hne Heq.
  exists (first_occurrences (observations bs)),
         (PrimFloat.div (loss_sum bs) (float_of_nat (length bs))).
  split.
  { rewrite (compute_on_dataset_spec bs beam (indexable_of_equal bs Heq)).
    destruct bs; [done|]. reflexivity. }
  split; [done|]. unfold first_occurrences.
  split; [apply firsts_from_sublist|].
  split; [apply firsts_from_NoDup|].
  split.
  - intros i. rewrite firsts_from_ids, <- (observations_ids bs Heq).
    split; [by intros [? _]|]. intros H. split; [done|]. by intros ?%elem_of_nil.
  - intros i c. rewrite firsts_from_caption.
    split; [by intros [_ ?]|]. intros H. split; [|done]. by intros ?%elem_of_nil.
Qed.

(** C4: on every non-empty sequence of batches the mean loss returned by
    [compute_on_dataset] is the sum of the per-batch loss scalars, added
    in batch order, divided by the number of batches, whatever the number
    of examples of each batch. *)
Theorem compute_on_dataset_mean_loss bs beam :
  bs ≠ [] →
  Forall indexable bs →
  ∃ ps,
    result (compute_on_dataset bs beam)
      = Ok (ps, PrimFloat.div
                  (fold_left PrimFloat.add (loss_item <$> bs) PrimFloat.zero)
                  (float_of_nat (length bs))).
Proof.
  intros Hne Hwf. rewrite (compute_on_dataset_spec bs beam Hwf).
  destruct bs as [|b bs]; [done|].
  eexists. reflexivity.
Qed.

(** C5: on a shard that yields no batch [compute_on_dataset] raises the
    division-by-zero error instead of returning a loss, and [inference]
    passes the error on to its caller. *)
Theorem compute_on_dataset_empty_shard beam :
  compute_on_dataset [] beam = ([EvModelEval], Raise ZeroDivisionError)
  ∧ ∀ w dataset_name,
      result (inference w [] dataset_name beam) = Raise ZeroDivisionError.
Proof. split; [reflexivity|]. intros w dataset_name. reflexivity. Qed.

(** C9: every batch goes through the forward pass, the criterion, the
    beam-search decode and the token-to-string conversion and counts for
    the mean loss; a batch all of whose itemIds have been seen before
    adds no prediction, yet its four collaborator calls are made and its
    loss enters the mean. *)
Theorem compute_on_dataset_runs_every_batch bs beam :
  bs ≠ [] →
  Forall indexable bs →
  trace (compute_on_dataset bs beam)
    = EvModelEval :: batch_events beam 0 (length bs)
  ∧ ∃ ps,
      result (compute_on_dataset bs beam)
        = Ok (ps, PrimFloat.div (loss_sum bs) (float_of_nat (length bs)))
      ∧ ∀ b,
          indexable b →
          (∀ i, i ∈ cocoids b → i ∈ (observations bs).*1) →
          compute_on_dataset (bs ++ [b]) beam
            = (trace (compute_on_dataset bs beam)
                 ++ [EvForward (length bs); EvCriterion (length bs);
                     EvDecodeSearch (length bs) beam;
                     EvDecodeSequence (length bs)],
               Ok (ps, PrimFloat.div
                         (PrimFloat.add (loss_sum bs) (loss_item b))
                         (float_of_nat (S (length bs))))).
Proof.
  intros Hne Hwf. rewrite (compute_on_dataset_spec bs beam Hwf).
  split; [reflexivity|].
  exists (entry_of <$> first_occurrences (observations bs)).
  split; [by destruct bs|].
  intros b Hb Hseen.
  rewrite compute_on_dataset_spec by (apply Forall_app; split; [done|by constructor]).
  rewrite length_app, Nat.add_1_r, truediv_S, loss_sum_snoc.
  rewrite batch_events_snoc, observations_app. simpl.
  unfold first_occurrences. rewrite firsts_from_app. simpl.
  rewrite (firsts_from_seen (observations bs)), app_nil_r; [done|].
  intros i Hi. apply Hseen.
  unfold observations in Hi. simpl in Hi. rewrite app_nil_r in Hi.
  apply list_elem_of_fmap in Hi as ([j c] & -> & Hin).
  by apply elem_of_zip_l in Hin.
Qed.

(** ** Calls and their traces *)

Lemma call_Ok {A} f (m : M A) t a :
  m = (t, Ok a) → call f m = (EvCall f :: t ++ [EvReturn f], Ok a).
Proof. intros ->. reflexivity. Qed.

Lemma call_Raise {A} f (m : M A) t e :
  m = (t, Raise e) → call f m = (EvCall f :: t, Raise e).
Proof. intros ->. reflexivity. Qed.

Lemma loop_trace_inner beam bs : ∀ i st,
  Forall (λ e, is_inner e = true) (trace (loop beam i bs st)).
Proof.
  induction bs as [|b bs IH]; intros i st; [constructor|].
  cbn [loop].
  destruct (collect (cocoids b) 0 (sents b) (predictions st) (done_ids st))
    as [[ps ds]|e] eqn:Hc.
  - rewrite (bind_Ok _ _ _ _ (step_Ok _ _ _ _ _ _ Hc)).
    unfold trace at 1. cbn [fst]. apply Forall_app. split; [|apply IH].
    repeat constructor.
  - rewrite (bind_Raise _ _ _ _ (step_Raise _ _ _ _ _ Hc)).
    repeat constructor.
Qed.

Lemma compute_on_dataset_trace_inner bs beam :
  Forall (λ e, is_inner e = true) (trace (compute_on_dataset bs beam)).
Proof.
  unfold compute_on_dataset.
  pose proof (loop_trace_inner beam bs 0 init_state) as H.
  destruct (loop beam 0 bs init_state) as [t [st|e]]; unfold trace in *; simpl in *.
  - unfold bind, lift. simpl.
    destruct (truediv (val_loss_sum st) (val_loss_count st)); simpl;
      rewrite ?app_nil_r; by constructor.
  - by constructor.
Qed.

(** The loss [compute_on_dataset] returns is a plain float and enters
    [reduce_loss] as such. *)
Lemma reduce_loss_float w x :
  (2 ≤ get_world_size w)%nat → reduce_loss w (VFloat x) = raise NotATensor.
Proof.
  destruct w as [r [|p ps] sc ar]; unfold get_world_size; simpl; [lia|].
  reflexivity.
Qed.

Lemma reduce_loss_single w loss :
  get_world_size w = 1%nat → reduce_loss w loss = ret loss.
Proof.
  destruct w as [r [|p ps] sc ar]; unfold get_world_size; simpl; [|lia].
  reflexivity.
Qed.

(** ** The four ways [inference] runs *)

Lemma inference_shard_fails w bs name beam tc e :
  compute_on_dataset bs beam = (tc, Raise e) →
  inference w bs name beam = (EvCall F_compute_on_dataset :: tc, Raise e).
Proof.
  intros Hc. unfold inference.
  by rewrite (bind_Raise _ _ _ _ (call_Raise _ _ _ _ Hc)).
Qed.

Lemma inference_distributed w bs name beam tc ps loss :
  (2 ≤ get_world_size w)%nat →
  compute_on_dataset bs beam = (tc, Ok (ps, loss)) →
  inference w bs name beam
    = (EvCall F_compute_on_dataset :: tc
         ++ [EvReturn F_compute_on_dataset; EvCall F_reduce_loss],
       Raise NotATensor).
Proof.
  intros Hw Hc. unfold inference.
  rewrite (bind_Ok _ _ _ _ (call_Ok _ _ _ _ Hc)).
  rewrite (reduce_loss_float w loss Hw).
  unfold call, bind, raise, trace, result. simpl.
  by rewrite <- app_assoc.
Qed.

Lemma inference_single_root w bs name beam tc ps loss :
  get_world_size w = 1%nat →
  rank w = 0%nat →
  compute_on_dataset bs beam = (tc, Ok (ps, loss)) →
  inference w bs name beam
    = match update_all [] [VList ps] with
      | Raise e =>
        (EvCall F_compute_on_dataset :: tc
           ++ [EvReturn F_compute_on_dataset;
               EvCall F_reduce_loss; EvReturn F_reduce_loss;
               EvCall F_synchronize; EvReturn F_synchronize;
               EvCall F_accumulate; EvAllGather],
         Raise e)
      | Ok d =>
        match scorer w (VDict d) name with
        | Raise e =>
          (EvCall F_compute_on_dataset :: tc
             ++ [EvReturn F_compute_on_dataset;
                 EvCall F_reduce_loss; EvReturn F_reduce_loss;
                 EvCall F_synchronize; EvReturn F_synchronize;
                 EvCall F_accumulate; EvAllGather; EvReturn F_accumulate;
                 EvCall F_coco_eval; EvScore],
           Raise e)
        | Ok metrics =>
          (EvCall F_compute_on_dataset :: tc
             ++ [EvReturn F_compute_on_dataset;
                 EvCall F_reduce_loss; EvReturn F_reduce_loss;
                 EvCall F_synchronize; EvReturn F_synchronize;
                 EvCall F_accumulate; EvAllGather; EvReturn F_accumulate;
                 EvCall F_coco_eval; EvScore; EvReturn F_coco_eval],
           Ok (VFloat loss, VDict d, metrics))
        end
      end.
Proof.
  intros Hw Hr Hc. unfold inference.
  rewrite (bind_Ok _ _ _ _ (call_Ok _ _ _ _ Hc)).
  rewrite (reduce_loss_single w _ Hw).
  destruct w as [r [|p pl] sc ar]; unfold get_world_size in Hw; simpl in *; [|lia].
  subst r.
  unfold _accumulate_predictions_from_multiple_gpus, all_gather, synchronize,
    coco_eval, is_main_process, get_world_size, call, bind, lift, ret, emit,
    trace, result.
  simpl.
  destruct (update_pairs [] ps) as [d|e]; simpl.
  - destruct (sc (VDict d) name) as [m|e]; simpl;
      rewrite <- ?app_assoc; reflexivity.
  - rewrite <- ?app_assoc; reflexivity.
Qed.

Lemma inference_single_other w bs name beam tc ps loss :
  get_world_size w = 1%nat →
  rank w ≠ 0%nat →
  compute_on_dataset bs beam = (tc, Ok (ps, loss)) →
  inference w bs name beam
    = (EvCall F_compute_on_dataset :: tc
         ++ [EvReturn F_compute_on_dataset;
             EvCall F_reduce_loss; EvReturn F_reduce_loss;
             EvCall F_synchronize; EvReturn F_synchronize;
             EvCall F_accumulate; EvAllGather; EvReturn F_accumulate],
       Ok (VNone, VNone, VNone)).
Proof.
  intros Hw Hr Hc. unfold inference.
  rewrite (bind_Ok _ _ _ _ (call_Ok _ _ _ _ Hc)).
  rewrite (reduce_loss_single w _ Hw).
  destruct w as [[|r] [|p pl] sc ar]; unfold get_world_size in Hw; simpl in *;
    [done| lia | | lia].
  unfold call, bind, lift, ret, emit, trace, result; simpl.
  rewrite <- ?app_assoc; reflexivity.
Qed.

Lemma not_inner_not_in (e : event) (t : list event) :
  is_inner e = false → Forall (λ e', is_inner e' = true) t → e ∉ t.
Proof.
  intros He Ht Hin. rewrite Forall_forall in Ht.
  specialize (Ht e Hin). congruence.
Qed.

(** ** The claims about [reduce_loss] *)


(** C2: in a run of two or more processes [reduce_loss] completes exactly
    on a tensor; [inference] hands it the plain float that
    [compute_on_dataset] returns, so that [inference] raises inside
    [reduce_loss] whenever the shard loop returns, never returns a
    result, and never gets past the loss reduction. *)
Theorem inference_reduce_loss_refuses_float w bs name beam :
  (2 ≤ get_world_size w)%nat →
  (∀ loss, (∃ v, result (reduce_loss w loss) = Ok v) ↔ ∃ x, loss = VTensor x)
  ∧ (∀ ps loss,
       result (compute_on_dataset bs beam) = Ok (ps, loss) →
       result (inference w bs name beam) = Raise NotATensor)
  ∧ (∀ r, result (inference w bs name beam) ≠ Ok r)
  ∧ EvReturn F_reduce_loss ∉ trace (inference w bs name beam).
Proof.
  intros Hw.
  pose proof (compute_on_dataset_trace_inner bs beam) as Hin.
  split; [|split; [|split]].
  - intros loss.
    destruct w as [r [|p pl] sc ar]; unfold get_world_size in *; simpl in *; [lia|].
    split.
    + intros [v Hv]. destruct loss; try discriminate Hv. by eexists.
    + intros [x ->]. destruct r; by eexists.
  - intros ps loss Hc.
    destruct (compute_on_dataset bs beam) as [tc o] eqn:E.
    unfold result in Hc. simpl in Hc. subst o.
    by rewrite (inference_distributed w bs name beam tc ps loss Hw E).
  - intros r.
    destruct (compute_on_dataset bs beam) as [tc [[ps loss]|e]] eqn:E.
    + by rewrite (inference_distributed w bs name beam tc ps loss Hw E).
    + by rewrite (inference_shard_fails w bs name beam tc e E).
  - destruct (compute_on_dataset bs beam) as [tc [[ps loss]|e]] eqn:E;
      unfold trace in Hin; simpl in Hin.
    + rewrite (inference_distributed w bs name beam tc ps loss Hw E).
      unfold trace. simpl.
      rewrite not_elem_of_cons, not_elem_of_app, !not_elem_of_cons.
      split; [done|]. split; [by apply not_inner_not_in|].
      repeat split; try done. apply not_elem_of_nil.
    + rewrite (inference_shard_fails w bs name beam tc e E).
      unfold trace. simpl. rewrite not_elem_of_cons.
      split; [done|]. by apply not_inner_not_in.
Qed.

(** ** The order of the steps of [inference] *)

Lemma filter_inner_marker t :
  Forall (λ e, is_inner e = true) t → List.filter is_marker t = [].
Proof.
  induction 1 as [|e t He _ IH]; [done|].
  simpl. rewrite IH. by destruct e.
Qed.

Lemma filter_inner_outer t :
  Forall (λ e, is_inner e = true) t → List.filter is_outer t = [].
Proof.
  induction 1 as [|e t He _ IH]; [done|].
  simpl. rewrite IH. unfold is_outer. by rewrite He.
Qed.

(** C8: in every call of [inference], completed or not, the steps are
    entered and left in the order of the source and none is skipped: the
    shard loop returns, then the loss reduction is entered and returns,
    then the barrier, then the gather, and the scorer is called last;
    every collective call lies inside its step. A call that returns on
    the root has gone through all of them. *)
Theorem inference_order w bs name beam :
  List.filter is_marker (trace (inference w bs name beam))
    `prefix_of` List.filter is_marker orchestration
  ∧ List.filter is_outer (trace (inference w bs name beam))
      `sublist_of` orchestration
  ∧ (∀ r,
       result (inference w bs name beam) = Ok r →
       is_main_process w = true →
       List.filter is_marker (trace (inference w bs name beam))
         = List.filter is_marker orchestration).
Proof.
  pose proof (compute_on_dataset_trace_inner bs beam) as Hin.
  destruct (compute_on_dataset bs beam) as [tc [[ps loss]|e]] eqn:E;
    unfold trace in Hin; simpl in Hin.
  - destruct (decide (get_world_size w = 1%nat)) as [Hw|Hw].
    + destruct (decide (rank w = 0%nat)) as [Hr|Hr].
      * rewrite (inference_single_root w bs name beam tc ps loss Hw Hr E).
        destruct (update_all [] [VList ps]) as [d|e'];
          [destruct (scorer w (VDict d) name) as [m|e']|];
          unfold trace; simpl;
          rewrite !List.filter_app, filter_inner_marker, filter_inner_outer
            by done;
          simpl; order_cases.
      * rewrite (inference_single_other w bs name beam tc ps loss Hw Hr E).
        unfold trace; simpl.
        rewrite !List.filter_app, filter_inner_marker, filter_inner_outer
          by done.
        simpl. order_cases.
    + assert (Hw' : (2 ≤ get_world_size w)%nat)
        by (unfold get_world_size in *; lia).
      rewrite (inference_distributed w bs name beam tc ps loss Hw' E).
      unfold trace; simpl.
      rewrite !List.filter_app, filter_inner_marker, filter_inner_outer
        by done.
      simpl. order_cases.
  - rewrite (inference_shard_fails w bs name beam tc e E).
    unfold trace; simpl.
    rewrite filter_inner_marker, filter_inner_outer by done.
    order_cases.
Qed.

(** ** Dictionaries and the merge *)

Lemma dict_get_set d k v k' :
  dict_get (dict_set d k v) k' = if decide (k = k') then Some v else dict_get d k'.
Proof.
  induction d as [|[k1 v1] d IH]; simpl.
  - destruct (decide (k = k')); done.
  - destruct (decide (k1 = k)) as [->|Hne]; simpl.
    + destruct (decide (k = k')); done.
    + destruct (decide (k1 = k')) as [->|Hne'].
      * by destruct (decide (k = k')) as [->|_].
      * exact IH.
Qed.

Lemma dict_get_None d k : k ∉ d.*1 → dict_get d k = None.
Proof.
  induction d as [|[k1 v1] d IH]; [done|]. simpl.
  rewrite not_elem_of_cons. intros [Hne Hout].
  destruct (decide (k1 = k)); [congruence|]. by apply IH.
Qed.

Lemma dict_set_keys d k v :
  (dict_set d k v).*1 = if decide (k ∈ d.*1) then d.*1 else d.*1 ++ [k].
Proof.
  induction d as [|[k1 v1] d IH].
  - simpl. destruct (decide (k ∈ [])) as [H|_]; [by apply elem_of_nil in H|done].
  - cbn [dict_set]. rewrite !fmap_cons. cbn [fst].
    destruct (decide (k1 = k)) as [->|Hne].
    + rewrite fmap_cons. cbn [fst].
      destruct (decide (k ∈ k :: d.*1)) as [_|H]; [done|].
      exfalso. apply H. left.
    + rewrite fmap_cons, IH. cbn [fst].
      destruct (decide (k ∈ d.*1)) as [Hin|Hout];
        destruct (decide (k ∈ k1 :: d.*1)) as [Hin'|Hout']; try done.
      * exfalso. apply Hout'. by right.
      * apply elem_of_cons in Hin' as [->|?]; done.
Qed.

Lemma dict_set_NoDup d k v : NoDup d.*1 → NoDup (dict_set d k v).*1.
Proof.
  intros Hd. rewrite dict_set_keys.
  destruct (decide (k ∈ d.*1)) as [|Hout]; [done|].
  apply NoDup_app. split; [done|]. split; [|apply NoDup_singleton].
  intros x Hx ->%list_elem_of_singleton. done.
Qed.

Lemma store_all_get d' : ∀ d k,
  NoDup d'.*1 →
  dict_get (store_all d' d) k
    = match dict_get d' k with Some v => Some v | None => dict_get d k end.
Proof.
  induction d' as [|[k1 v1] d' IH]; intros d k Hnd; [done|].
  apply NoDup_cons in Hnd as [Hout Hnd].
  unfold store_all in *. simpl. rewrite (IH _ _ Hnd), dict_get_set.
  destruct (decide (k1 = k)) as [->|Hne]; [|done].
  by rewrite (dict_get_None d' k Hout).
Qed.

Lemma store_all_NoDup d' : ∀ d, NoDup d.*1 → NoDup (store_all d' d).*1.
Proof.
  induction d' as [|[k1 v1] d' IH]; intros d Hd; [done|].
  unfold store_all in *. simpl. apply IH. by apply dict_set_NoDup.
Qed.

Lemma update_all_mappings ms : ∀ d,
  NoDup d.*1 →
  Forall (λ m, NoDup m.*1) ms →
  ∃ d',
    update_all d (VDict <$> ms) = Ok d'
    ∧ NoDup d'.*1
    ∧ ∀ k, dict_get d' k
           = match latest k ms with Some v => Some v | None => dict_get d k end.
Proof.
  induction ms as [|m ms IH]; intros d Hd Hms.
  - exists d. by repeat split.
  - apply Forall_cons in Hms as [Hm Hms].
    destruct (IH (store_all m d) (store_all_NoDup m d Hd) Hms)
      as (d' & Hup & Hnd & Hget).
    exists d'. split; [exact Hup|]. split; [exact Hnd|].
    intros k. rewrite Hget, (store_all_get m d k Hm). simpl.
    by destruct (latest k ms).
Qed.

Lemma dict_set_idem d k v : dict_set (dict_set d k v) k v = dict_set d k v.
Proof.
  induction d as [|[k1 v1] d IH]; simpl.
  - by destruct (decide (k = k)).
  - destruct (decide (k1 = k)) as [->|Hne]; simpl.
    + by destruct (decide (k = k)).
    + destruct (decide (k1 = k)); [done|]. by rewrite IH.
Qed.

(** The merge applied to the prediction lists that [compute_on_dataset]
    builds: each entry is read as a key/value pair made of its two field
    names. *)
Lemma update_pairs_entries obs : ∀ d,
  update_pairs d (entry_of <$> obs)
    = Ok (match obs with
          | [] => d
          | _ :: _ => dict_set d (AStr "image_id") (VStr "caption")
          end).
Proof.
  induction obs as [|o obs IH]; intros d; [done|].
  cbn [fmap list_fmap update_pairs].
  change (update_pair d (entry_of o))
    with (Ok (dict_set d (AStr "image_id") (VStr "caption"))).
  cbv iota beta. rewrite IH. destruct obs; [done|]. by rewrite dict_set_idem.
Qed.

(** ** The claim about the merge *)

(** C1, as stated, fails: with rank 0 contributing {1: "a cat"} and rank
    1 contributing {1: "a dog", 2: "a dog running"}, the merge keeps the
    caption of rank 1 for item 1. *)
Lemma merge_rank0_precedence_fails :
  result (_accumulate_predictions_from_multiple_gpus root_of_two (VDict cat_only))
    = Ok (VDict [(AInt 1, VStr "a dog"); (AInt 2, VStr "a dog running")])
  ∧ result (_accumulate_predictions_from_multiple_gpus root_of_two (VDict cat_only))
    ≠ Ok (VDict [(AInt 1, VStr "a cat"); (AInt 2, VStr "a dog running")]).
Proof. split; [reflexivity|]. intros H. discriminate H. Qed.

(** C1, amended: on the root the merge stores the gathered mappings one
    after the other in ascending rank order into an empty dictionary; the
    result holds every key that some process contributes, once, and for a
    key contributed by several processes the value of the highest-ranked
    one. *)
Theorem merge_highest_rank_wins w (own : list (atom * value))
    (others : list (list (atom * value))) :
  rank w = 0%nat →
  peer_predictions <$> peers w = VDict <$> others →
  Forall (λ m, NoDup m.*1) (own :: others) →
  ∃ d,
    _accumulate_predictions_from_multiple_gpus w (VDict own)
      = ([EvAllGather], Ok (VDict d))
    ∧ NoDup d.*1
    ∧ ∀ k, dict_get d k = latest k (own :: others).
Proof.
  intros Hr Hp Hnd.
  destruct (update_all_mappings (own :: others) [] (NoDup_nil_2) Hnd)
    as (d & Hup & Hd & Hget).
  exists d. split; [|split; [exact Hd|]].
  - unfold _accumulate_predictions_from_multiple_gpus, all_gather, is_main_process.
    rewrite Hr. simpl. change (map peer_predictions (peers w))
      with (peer_predictions <$> peers w).
    rewrite Hp. change (VDict own :: (VDict <$> others))
      with (VDict <$> (own :: others)).
    unfold bind, emit, ret, lift. simpl. simpl in Hup. by rewrite Hup.
  - intros k. rewrite Hget. by destruct (latest k (own :: others)).
Qed.

(** On the prediction lists of [compute_on_dataset] a single process
    merges to the one item ['image_id': 'caption'], or to the empty
    dictionary when there is no prediction. *)
Lemma accumulate_entry_lists w obs :
  rank w = 0%nat →
  peers w = [] →
  result (_accumulate_predictions_from_multiple_gpus w (VList (entry_of <$> obs)))
    = Ok (VDict match obs with
                | [] => []
                | _ :: _ => [(AStr "image_id", VStr "caption")]
                end).
Proof.
  intros Hr Hp.
  unfold _accumulate_predictions_from_multiple_gpus, all_gather, is_main_process.
  rewrite Hr, Hp. unfold bind, emit, ret, lift, result. simpl.
  rewrite update_pairs_entries. by destruct obs.
Qed.

(** ** Processes other than the root *)

Lemma inference_distributed_cases w bs name beam :
  (2 ≤ get_world_size w)%nat →
  ∃ tc e,
    Forall (λ e', is_inner e' = true) tc
    ∧ (inference w bs name beam = (EvCall F_compute_on_dataset :: tc, Raise e)
       ∨ inference w bs name beam
         = (EvCall F_compute_on_dataset :: tc
              ++ [EvReturn F_compute_on_dataset; EvCall F_reduce_loss],
            Raise e)).
Proof.
  intros Hw.
  pose proof (compute_on_dataset_trace_inner bs beam) as Hin.
  destruct (compute_on_dataset bs beam) as [tc [[ps loss]|e]] eqn:E;
    unfold trace in Hin; simpl in Hin.
  - exists tc, NotATensor. split; [done|]. right.
    by apply (inference_distributed w bs name beam tc ps loss).
  - exists tc, e. split; [done|]. left. by apply inference_shard_fails.
Qed.

Lemma non_root_distributed w :
  rank w ≠ 0%nat → (rank w < get_world_size w)%nat → (2 ≤ get_world_size w)%nat.
Proof. lia. Qed.

(** C7 is not met by the code: on a process other than the root of a
    well-formed group, [inference] raises before it reaches its
    [return None, None, None]; it returns nothing, and the scorer is not
    called. *)
Theorem inference_non_root_raises w bs name beam :
  rank w ≠ 0%nat →
  (rank w < get_world_size w)%nat →
  (∃ e, result (inference w bs name beam) = Raise e)
  ∧ result (inference w bs name beam) ≠ Ok (VNone, VNone, VNone)
  ∧ EvScore ∉ trace (inference w bs name beam).
Proof.
  intros Hr Hlt.
  destruct (inference_distributed_cases w bs name beam
              (non_root_distributed w Hr Hlt)) as (tc & e & Hin & [H|H]);
    rewrite H; unfold result, trace; simpl.
  - split; [by eexists|]. split; [done|].
    rewrite not_elem_of_cons. split; [done|]. by apply not_inner_not_in.
  - split; [by eexists|]. split; [done|].
    rewrite not_elem_of_cons, not_elem_of_app, !not_elem_of_cons.
    split; [done|]. split; [by apply not_inner_not_in|].
    repeat split; try done. apply not_elem_of_nil.
Qed.

(** ** The driver *)

(** The run of [test] on the process of rank 1 of a group of two:
    [inference] does not hand over (None, None, None); [test] fails with
    the error of the loss reduction, not with an attribute error, and has
    written nothing. *)
Lemma test_non_root_gets_no_triple :
  result (inference rank_one_of_two one_batch "coco" 3)
    ≠ Ok (VNone, VNone, VNone)
  ∧ result (test rank_one_of_two one_batch "coco" 3 false) = Raise NotATensor
  ∧ EvJsonDump VNone ∉ trace (test rank_one_of_two one_batch "coco" 3 false).
Proof.
  split; [intros H; discriminate H|]. split; [reflexivity|].
  unfold trace. simpl. intros H.
  repeat (apply elem_of_cons in H as [H|H]; [discriminate H|]).
  by apply elem_of_nil in H.
Qed.

(** C10 is not met by the code: on a process other than the root of a
    well-formed group, [test] does not receive (None, None, None), because
    [inference] raises before it reaches its [return None, None, None];
    the error leaves [test] at once and nothing is written to the output
    file. The rest of [test] is as the claim says: it has no guard for
    null results, and given (None, None, None) it writes null to the file
    and then fails with an attribute error on [scores.items()]. *)
Theorem test_non_root_fails_in_inference w bs dataset beam verbose :
  rank w ≠ 0%nat →
  (rank w < get_world_size w)%nat →
  (∃ e, test w bs dataset beam verbose
          = (trace (inference w bs dataset beam), Raise e))
  ∧ (∀ u, result (test w bs dataset beam verbose) ≠ Ok u)
  ∧ (EvOpenFile ∉ trace (test w bs dataset beam verbose))
  ∧ report (VNone, VNone, VNone) verbose
      = ([EvOpenFile; EvJsonDump VNone; EvLog], Raise AttributeError).
Proof.
  intros Hr Hlt.
  destruct (inference_distributed_cases w bs dataset beam
              (non_root_distributed w Hr Hlt)) as (tc & e & Hin & [H|H]);
    unfold test; rewrite H; unfold bind, result, trace; simpl.
  - split; [by eexists|]. split; [done|]. split; [|done].
    rewrite not_elem_of_cons. split; [done|]. by apply not_inner_not_in.
  - split; [by eexists|]. split; [done|]. split; [|done].
    rewrite not_elem_of_cons, not_elem_of_app, !not_elem_of_cons.
    split; [done|]. split; [by apply not_inner_not_in|].
    repeat split; try done. apply not_elem_of_nil.
Qed.

(** ** Instances *)

Lemma two_batches_equal :
  Forall (λ b, length (sents b) = length (cocoids b)) two_batches.
Proof. repeat constructor. Defined.

Lemma compute_on_dataset_first_occurrences_witness :
  ∃ loss,
    result (compute_on_dataset two_batches 3)
      = Ok ([entry 7 "a cat"; entry 9 "a bird"], loss).
Proof.
  destruct (compute_on_dataset_first_occurrences two_batches 3)
    as (kept & loss & Hres & Hkept & _).
  - discriminate.
  - exact two_batches_equal.
  - exists loss. rewrite Hres, Hkept. reflexivity.
Defined.

Lemma compute_on_dataset_mean_loss_witness :
  ∃ ps, result (compute_on_dataset three_batches 3) = Ok (ps, 4.0%float).
Proof.
  destruct (compute_on_dataset_mean_loss three_batches 3) as (ps & Hres).
  - discriminate.
  - repeat constructor; unfold indexable; simpl; lia.
  - exists ps. rewrite Hres. reflexivity.
Defined.

Lemma compute_on_dataset_runs_every_batch_witness :
  ∃ ps,
    compute_on_dataset (one_batch ++ [seen_batch]) 3
      = ([EvModelEval;
          EvForward 0; EvCriterion 0; EvDecodeSearch 0 3; EvDecodeSequence 0;
          EvForward 1; EvCriterion 1; EvDecodeSearch 1 3; EvDecodeSequence 1],
         Ok (ps, 3.0%float)).
Proof.
  destruct (compute_on_dataset_runs_every_batch one_batch 3)
    as (Htrace & ps & Hres & Hseen).
  - discriminate.
  - repeat constructor; unfold indexable; simpl; lia.
  - exists ps. rewrite (Hseen seen_batch).
    + rewrite Htrace. reflexivity.
    + unfold indexable. simpl. lia.
    + intros i Hi. exact Hi.
Defined.


Lemma inference_reduce_loss_refuses_float_witness :
  result (inference rank_one_of_two one_batch "coco" 3) = Raise NotATensor.
Proof.
  destruct (inference_reduce_loss_refuses_float rank_one_of_two one_batch "coco" 3)
    as (_ & Hraise & _).
  - unfold get_world_size. simpl. lia.
  - apply (Hraise [entry 7 "a cat"] 2.0%float). reflexivity.
Defined.

Lemma inference_order_witness :
  List.filter is_marker (trace (inference single two_batches "coco" 3))
    = List.filter is_marker orchestration.
Proof.
  destruct (inference_order single two_batches "coco" 3) as (_ & _ & Hall).
  eapply Hall; reflexivity.
Defined.

Lemma merge_highest_rank_wins_witness :
  ∃ d,
    result (_accumulate_predictions_from_multiple_gpus root_of_two (VDict cat_only))
      = Ok (VDict d)
    ∧ dict_get d (AInt 1) = Some (VStr "a dog")
    ∧ dict_get d (AInt 2) = Some (VStr "a dog running").
Proof.
  destruct (merge_highest_rank_wins root_of_two cat_only [dog_and_running])
    as (d & Hres & _ & Hget).
  - reflexivity.
  - reflexivity.
  - refine (bool_decide_unpack _ _). vm_compute. exact I.
  - exists d. rewrite Hres, !Hget. repeat split.
Defined.

Lemma inference_non_root_raises_witness :
  result (inference rank_one_of_two one_batch "coco" 3)
    ≠ Ok (VNone, VNone, VNone).
Proof.
  destruct (inference_non_root_raises rank_one_of_two one_batch "coco" 3)
    as (_ & Hne & _).
  - discriminate.
  - unfold get_world_size. simpl. lia.
  - exact Hne.
Defined.

Lemma test_non_root_fails_in_inference_witness :
  EvOpenFile ∉ trace (test rank_one_of_two one_batch "coco" 3 true).
Proof.
  destruct (test_non_root_fails_in_inference rank_one_of_two one_batch "coco" 3 true)
    as (_ & _ & Hout & _).
  - discriminate.
  - unfold get_world_size. simpl. lia.
  - exact Hout.
Defined.

(** * Further properties of the evaluation *)

(** ** The shard loop beyond the claims *)

Lemma collect_short ids ss : ∀ k ps ds,
  (k ≤ length ids)%nat →
  (length ids < k + length ss)%nat →
  collect ids k ss ps ds = Raise IndexError.
Proof.
  induction ss as [|sent ss IH]; intros k ps ds Hk Hlen; simpl in *.
  - lia.
  - destruct (ids !! k) as [id|] eqn:Hid; [|done].
    apply lookup_lt_Some in Hid.
    destruct (ds !! id); apply IH; lia.
Qed.

Lemma loop_app beam a : ∀ b i st,
  loop beam i (a ++ b) st
    = let* st' := loop beam i a st in loop beam (i + length a) b st'.
Proof.
  induction a as [|x a IH]; intros b i st.
  - simpl. unfold bind, ret. simpl. rewrite Nat.add_0_r. by destruct (loop beam i b st).
  - cbn [app loop length].
    destruct (step beam i x st) as [t [st1|e]]; [|done].
    unfold bind at 1 3. cbn [fst snd]. rewrite IH.
    unfold bind. simpl.
    replace (S (i + length a))%nat with (i + S (length a))%nat by lia.
    destruct (loop beam (S i) a st1) as [t1 [st2|e]]; simpl; [|done].
    by rewrite app_assoc.
Qed.

(** X1: a batch that has more decoded captions than image ids makes
    [compute_on_dataset] raise the index error at that batch: the batches
    before it and its own collaborator calls have run, the batches after
    it have not, and nothing is returned. *)
Theorem compute_on_dataset_short_ids bs1 b bs2 beam :
  Forall indexable bs1 →
  (length (cocoids b) < length (sents b))%nat →
  compute_on_dataset (bs1 ++ b :: bs2) beam
    = (EvModelEval :: batch_events beam 0 (S (length bs1)), Raise IndexError).
Proof.
  intros Hwf Hshort.
  destruct (loop_spec beam bs1 0 init_state [] Hwf seen_empty) as (ds & Hl & _).
  assert (Hloop : loop beam 0 (bs1 ++ b :: bs2) init_state
                  = (batch_events beam 0 (S (length bs1)), Raise IndexError)).
  { rewrite loop_app, (bind_Ok _ _ _ _ Hl). cbn [loop].
    rewrite (bind_Raise _ _ _ _ (step_Raise beam _ b _ IndexError
               (collect_short _ _ 0 _ _ (Nat.le_0_l _) Hshort))).
    by rewrite batch_events_snoc. }
  unfold compute_on_dataset. by rewrite Hloop.
Qed.

(** X2: when the loop has gone through a shard, [done_ids] holds exactly
    the image ids that have an entry in [predictions]. *)
Theorem loop_done_ids_are_predicted bs beam :
  Forall indexable bs →
  ∃ st,
    result (loop beam 0 bs init_state) = Ok st
    ∧ ∀ z, is_Some (done_ids st !! z) ↔ ∃ c, entry z c ∈ predictions st.
Proof.
  intros Hwf.
  destruct (loop_spec beam bs 0 init_state [] Hwf seen_empty) as (ds & Hl & Hs).
  eexists. rewrite Hl. split; [reflexivity|]. simpl.
  intros z. rewrite (Hs z), app_nil_l.
  pose proof (firsts_from_ids [] (observations bs) z) as Hids.
  split.
  - intros Hz.
    assert (Hin : z ∈ (firsts_from [] (observations bs)).*1).
    { apply Hids. split; [done|]. by intros ?%elem_of_nil. }
    apply list_elem_of_fmap in Hin as ([i c] & -> & Hin).
    exists c. apply list_elem_of_fmap. by exists (i, c).
  - intros [c Hc]. apply list_elem_of_fmap in Hc as ([i c'] & Heq & Hin).
    unfold entry_of, entry in Heq. simpl in Heq. injection Heq as -> ->.
    apply Hids. apply list_elem_of_fmap. by exists (i, c').
Qed.

(** X3: the predictions of the first batches of a shard are an initial
    segment of the predictions of the whole shard: later batches only add
    entries at the end, and only for image ids not seen before. *)
Theorem compute_on_dataset_predictions_grow bs bs' beam :
  bs ≠ [] →
  Forall indexable (bs ++ bs') →
  ∃ ps loss loss',
    result (compute_on_dataset bs beam) = Ok (ps, loss)
    ∧ result (compute_on_dataset (bs ++ bs') beam)
      = Ok (ps ++ (entry_of <$> firsts_from (observations bs) (observations bs')),
            loss').
Proof.
  intros Hne Hwf. pose proof Hwf as Hwf'. apply Forall_app in Hwf' as [Hwf1 _].
  rewrite (compute_on_dataset_spec bs beam Hwf1).
  rewrite (compute_on_dataset_spec (bs ++ bs') beam Hwf).
  destruct bs as [|b bs]; [done|].
  do 3 eexists. split; [reflexivity|].
  cbn [app length]. rewrite truediv_S. simpl.
  unfold first_occurrences.
  by rewrite observations_app, app_assoc, firsts_from_app, fmap_app.
Qed.

(** ** A run on a single process *)

Lemma first_occurrences_nil obs : first_occurrences obs = [] ↔ obs = [].
Proof.
  split; [|by intros ->].
  destruct obs as [|o obs]; [done|].
  unfold first_occurrences. rewrite firsts_from_cons.
  destruct (decide (o.1 ∈ [].*1)) as [H|_]; [by apply elem_of_nil in H|done].
Qed.

Lemma update_all_entries obs :
  update_all [] [VList (entry_of <$> obs)]
    = Ok match obs with
         | [] => []
         | _ :: _ => [(AStr "image_id", VStr "caption")]
         end.
Proof.
  cbn [update_all update iterate]. rewrite update_pairs_entries.
  by destruct obs.
Qed.

(** X4: on a single process, for a non-empty shard of indexable batches,
    [inference] returns the mean loss as it left the shard loop, the
    metrics of the scorer, and as predictions the dictionary that
    [dict.update] makes of the entry list: no item for an empty list,
    the one item ['image_id': 'caption'] otherwise. *)
Theorem inference_single_process w bs name beam metrics :
  get_world_size w = 1%nat →
  rank w = 0%nat →
  bs ≠ [] →
  Forall indexable bs →
  scorer w (VDict match observations bs with
                  | [] => []
                  | _ :: _ => [(AStr "image_id", VStr "caption")]
                  end) name = Ok metrics →
  result (inference w bs name beam)
    = Ok (VFloat (PrimFloat.div (loss_sum bs) (float_of_nat (length bs))),
          VDict match observations bs with
                | [] => []
                | _ :: _ => [(AStr "image_id", VStr "caption")]
                end,
          metrics).
Proof.
  intros Hw Hr Hne Hwf Hsc.
  pose proof (compute_on_dataset_spec bs beam Hwf) as Hc.
  destruct bs as [|b bs]; [done|]. cbn [length] in Hc. rewrite truediv_S in Hc.
  rewrite (inference_single_root w _ name beam _ _ _ Hw Hr Hc).
  rewrite update_all_entries.
  destruct (observations (b :: bs)) as [|o l] eqn:Ho.
  - change (first_occurrences []) with (@nil (Z * string)).
    cbv beta iota. by rewrite Hsc.
  - destruct (first_occurrences (o :: l)) as [|o' l'] eqn:Hf.
    + by apply first_occurrences_nil in Hf.
    + cbv beta iota. by rewrite Hsc.
Qed.

Lemma log_scores_floats ms :
  Forall (λ kv : atom * value, ∃ x, kv.2 = VFloat x) ms →
  log_scores ms = (replicate (length ms) EvLog, Ok tt).
Proof.
  induction 1 as [|[k v] ms [x Hx] _ IH]; [done|].
  simpl in Hx. subst v. cbn [log_scores format_score]. rewrite IH. reflexivity.
Qed.

(** X5: on a single process, for a non-empty shard of indexable batches
    and a scorer that returns float scores, [test] does, after all that
    [inference] does, exactly this: it opens the output file, writes the
    merged dictionary to it, logs the file name and then logs once for
    every score. It then completes when [verbose] is off or there is no
    prediction; with [verbose] on and a prediction it fails with a type
    error before logging any prediction, the loop over the merged
    dictionary subscripting the key ['image_id'] with a field name. *)
Theorem test_single_process w bs name beam ms :
  get_world_size w = 1%nat →
  rank w = 0%nat →
  bs ≠ [] →
  Forall indexable bs →
  scorer w (VDict match observations bs with
                  | [] => []
                  | _ :: _ => [(AStr "image_id", VStr "caption")]
                  end) name = Ok (VDict ms) →
  Forall (λ kv : atom * value, ∃ x, kv.2 = VFloat x) ms →
  ∀ verbose,
    test w bs name beam verbose
      = (trace (inference w bs name beam)
           ++ [EvOpenFile;
               EvJsonDump (VDict match observations bs with
                                 | [] => []
                                 | _ :: _ => [(AStr "image_id", VStr "caption")]
                                 end);
               EvLog]
           ++ replicate (length ms) EvLog,
         if verbose
         then match observations bs with
              | [] => Ok tt
              | _ :: _ => Raise TypeError
              end
         else Ok tt).
Proof.
  intros Hw Hr Hne Hwf Hsc Hms verbose.
  pose proof (inference_single_process w bs name beam (VDict ms)
                Hw Hr Hne Hwf Hsc) as Hres.
  destruct (inference w bs name beam) as [t o] eqn:Hinf.
  unfold result in Hres. simpl in Hres. subst o.
  unfold test. rewrite Hinf.
  unfold bind at 1. cbn [fst snd]. unfold report, trace. cbn [fst].
  destruct (observations bs) as [|o l]; destruct verbose;
    unfold json_dump; cbn [serializable forallb items iterate];
    unfold bind, emit, lift, ret; cbn [fst snd];
    rewrite (log_scores_floats ms Hms); cbn [fst snd];
    simpl; rewrite ?app_nil_r; reflexivity.
Qed.

(** * Properties of the encoder *)

(** ** Blocks and stages *)

Lemma new_Conv2d_Ok cin cout k s p g :
  0 < g → cin `mod` g = 0 → cout `mod` g = 0 → 0 ≤ cin → 0 ≤ cout →
  new_Conv2d cin cout k s p g = Ok (Build_Conv2d cin cout k s p g true).
Proof.
  intros Hg Hin Hout Hcin Hcout. unfold new_Conv2d.
  destruct (decide (g ≤ 0)); [lia|].
  destruct (decide (cin `mod` g ≠ 0)); [done|].
  destruct (decide (cout `mod` g ≠ 0)); [done|].
  destruct (decide (cin < 0 ∨ cout < 0)); [lia|done].
Qed.

Lemma new_Conv2d_ungrouped cin cout k s p :
  0 ≤ cin → 0 ≤ cout →
  new_Conv2d cin cout k s p 1 = Ok (Build_Conv2d cin cout k s p 1 true).
Proof. intros. apply new_Conv2d_Ok; [lia|apply Z.mod_1_r..|done|done]. Qed.

Lemma new_Conv2d_fields cin cout k s p g c :
  new_Conv2d cin cout k s p g = Ok c → c = Build_Conv2d cin cout k s p g true.
Proof.
  unfold new_Conv2d. repeat (destruct (decide _); [done|]). by intros [= <-].
Qed.

Lemma BottleneckWithBatchNorm_ok cin bott cout g s1x1 s :
  0 < g → bott `mod` g = 0 → 0 ≤ cin → 0 ≤ bott → 0 ≤ cout →
  (cin = cout → s = 1) →
  ∃ b,
    BottleneckWithBatchNorm cin bott cout g s1x1 s = Ok b
    ∧ block_ok cin cout s b
    ∧ Forall (λ f, f = true) (block_flags b).
Proof.
  intros Hg Hmod Hcin Hbott Hcout Hs. unfold BottleneckWithBatchNorm.
  destruct (decide (cin ≠ cout)) as [Hne|Heq]; destruct s1x1;
    rewrite ?new_Conv2d_ungrouped by done; cbn [and_then];
    rewrite ?new_Conv2d_ungrouped by done; cbn [and_then];
    rewrite (new_Conv2d_Ok bott bott 3 _ 1 g Hg Hmod Hmod Hbott Hbott);
    cbn [and_then];
    rewrite ?new_Conv2d_ungrouped by done; cbn [and_then];
    (eexists; split; [reflexivity|]);
    (split; [|by repeat constructor]);
    unfold block_ok; simpl; repeat split; try done; auto;
    try (apply dec_stable in Heq; done);
    try (apply dec_stable in Heq; auto).
Qed.

(** Where a block that has been built has its shortcut and its stride. *)
Lemma BottleneckWithBatchNorm_layout cin bott cout g s1x1 s b :
  BottleneckWithBatchNorm cin bott cout g s1x1 s = Ok b →
  block_layout cin cout s1x1 s b.
Proof.
  unfold BottleneckWithBatchNorm, block_layout.
  destruct (decide (cin ≠ cout)) as [Hne|Heq].
  - destruct (new_Conv2d cin cout 1 s 0 1) as [d|] eqn:Hd; [|done].
    cbn [and_then].
    destruct s1x1;
      (destruct (new_Conv2d cin bott 1 _ 0 1) as [c1|] eqn:H1; [|done]);
      cbn [and_then];
      (destruct (new_Conv2d bott bott 3 _ 1 g) as [c2|] eqn:H2; [|done]);
      cbn [and_then];
      (destruct (new_Conv2d bott cout 1 1 0 1) as [c3|] eqn:H3; [|done]);
      cbn [and_then]; intros [= <-]; simpl;
      apply new_Conv2d_fields in H1, H2; subst c1 c2; simpl;
      (split; [split; [done|intros ?; by destruct Hne]|done]).
  - apply dec_stable in Heq. cbn [and_then].
    destruct s1x1;
      (destruct (new_Conv2d cin bott 1 _ 0 1) as [c1|] eqn:H1; [|done]);
      cbn [and_then];
      (destruct (new_Conv2d bott bott 3 _ 1 g) as [c2|] eqn:H2; [|done]);
      cbn [and_then];
      (destruct (new_Conv2d bott cout 1 1 0 1) as [c3|] eqn:H3; [|done]);
      cbn [and_then]; intros [= <-]; simpl;
      apply new_Conv2d_fields in H1, H2; subst c1 c2; simpl;
      (split; [done|done]).
Qed.

Lemma make_blocks_layout n : ∀ cin bott cout g s1x1 s blocks,
  make_blocks BottleneckWithBatchNorm n cin bott cout g s1x1 s = Ok blocks →
  match blocks with
  | [] => True
  | b :: rest =>
    block_layout cin cout s1x1 s b
    ∧ Forall (λ b', downsample b' = None
                    ∧ (stride (conv1 b'), stride (conv2 b')) = (1, 1)) rest
  end.
Proof.
  induction n as [|n IH]; intros cin bott cout g s1x1 s blocks.
  - by intros [= <-].
  - cbn [make_blocks].
    destruct (BottleneckWithBatchNorm cin bott cout g s1x1 s) as [b|] eqn:Hb;
      [|done].
    cbn [and_then].
    destruct (make_blocks BottleneckWithBatchNorm n cout bott cout g s1x1 1)
      as [rest|] eqn:Hrest; [|done].
    cbn [and_then]. intros [= <-].
    split; [by eapply BottleneckWithBatchNorm_layout|].
    specialize (IH _ _ _ _ _ _ _ Hrest).
    destruct rest as [|b' rest']; [constructor|].
    destruct IH as [[Hds Hst] Htail]. constructor; [|exact Htail].
    split; [by apply Hds|]. rewrite Hst. by destruct s1x1.
Qed.

Lemma make_blocks_ok n : ∀ cin bott cout g s1x1 s,
  0 < g → bott `mod` g = 0 → 0 ≤ cin → 0 ≤ bott → 0 ≤ cout →
  (cin = cout → s = 1) →
  ∃ blocks,
    make_blocks BottleneckWithBatchNorm n cin bott cout g s1x1 s = Ok blocks
    ∧ length blocks = n
    ∧ Forall (λ f, f = true) (stage_flags blocks)
    ∧ match blocks with
      | [] => True
      | b :: rest => block_ok cin cout s b ∧ Forall (block_ok cout cout 1) rest
      end.
Proof.
  induction n as [|n IH];
    intros cin bott cout g s1x1 s Hg Hmod Hcin Hbott Hcout Hs.
  - exists []. by repeat split.
  - destruct (BottleneckWithBatchNorm_ok cin bott cout g s1x1 s
                Hg Hmod Hcin Hbott Hcout Hs) as (b & Hb & Hok & Hfl).
    destruct (IH cout bott cout g s1x1 1 Hg Hmod Hcout Hbott Hcout
                (λ _, eq_refl)) as (rest & Hrest & Hlen & Hfl' & Hchain).
    exists (b :: rest). cbn [make_blocks]. rewrite Hb. cbn [and_then].
    rewrite Hrest. cbn [and_then]. split; [done|].
    split; [by rewrite <- Hlen|].
    split; [unfold stage_flags; simpl; by apply Forall_app|].
    split; [done|].
    destruct rest as [|b' rest']; [done|]. destruct Hchain. by constructor.
Qed.

(** X6: for positive sizes, a stage made of bottleneck blocks has
    [block_count] blocks, none when [block_count] is not positive. The
    first block takes the input channels to the output channels and
    carries the stride of the stage; it has a shortcut convolution
    exactly when the two channel counts differ, and its stride sits in
    the first convolution when [stride_in_1x1] is set and in the second
    otherwise. Every later block keeps the channels, has no shortcut
    convolution and stride 1 throughout. In each block the layers follow
    one another in their channels and the shortcut does what the main
    branch does. *)
Theorem make_stage_chain cin bott cout block_count g s1x1 first_stride :
  0 < g →
  bott `mod` g = 0 →
  0 < cin → 0 < bott → 0 < cout →
  0 < first_stride →
  (cin = cout → first_stride = 1) →
  ∃ blocks,
    _make_stage BottleneckWithBatchNorm cin bott cout block_count g s1x1
      first_stride = Ok blocks
    ∧ length blocks = Z.to_nat block_count
    ∧ (0 < block_count → stage_ok cin cout first_stride blocks)
    ∧ (block_count ≤ 0 → blocks = [])
    ∧ match blocks with
      | [] => True
      | b :: rest =>
        (downsample b = None ↔ cin = cout)
        ∧ (stride (conv1 b), stride (conv2 b))
          = (if s1x1 then (first_stride, 1) else (1, first_stride))
        ∧ Forall (λ b', downsample b' = None
                        ∧ (stride (conv1 b'), stride (conv2 b')) = (1, 1)) rest
      end.
Proof.
  intros Hg Hmod Hcin Hbott Hcout _ Hs. unfold _make_stage.
  destruct (make_blocks_ok (Z.to_nat block_count) cin bott cout g s1x1
              first_stride Hg Hmod) as (blocks & Hb & Hlen & _ & Hchain);
    [lia|lia|lia|exact Hs|].
  pose proof (make_blocks_layout _ _ _ _ _ _ _ _ Hb) as Hlayout.
  exists blocks. split; [done|]. split; [done|]. split; [|split].
  - intros Hpos. destruct blocks as [|b rest]; [simpl in Hlen; lia|done].
  - intros Hle. destruct blocks; [done|]. simpl in Hlen. lia.
  - destruct blocks as [|b rest]; [done|].
    destruct Hlayout as [[Hds Hst] Hrest]. done.
Qed.

(** ** The construction of the encoder *)

Lemma layer_name_inj i j : layer_name i = layer_name j → i = j.
Proof.
  unfold layer_name. intros H.
  apply (inj (String.app "layer")) in H. by apply (inj pretty) in H.
Qed.

Lemma stage_out_channels_pos c i :
  0 < RES2_OUT_CHANNELS c → 1 ≤ i → 0 < stage_out_channels c i.
Proof.
  intros HR Hi. unfold stage_out_channels.
  apply Z.mul_pos_pos; [done|]. apply Z.pow_pos_nonneg; lia.
Qed.

Lemma stage_out_channels_succ c i :
  1 ≤ i → stage_out_channels c (i + 1) = 2 * stage_out_channels c i.
Proof.
  intros Hi. unfold stage_out_channels.
  replace (i + 1 - 1) with (Z.succ (i - 1)) by lia.
  rewrite Z.pow_succ_r by lia. lia.
Qed.

Lemma stages_ok_frame c self self' specs : ∀ cin,
  (∀ i, i ∈ index <$> specs →
        self_modules self' !! layer_name i = self_modules self !! layer_name i
        ∧ self_return_features self' !! layer_name i
          = self_return_features self !! layer_name i) →
  stages_ok c self specs cin → stages_ok c self' specs cin.
Proof.
  induction specs as [|spec rest IH]; intros cin Hframe; [done|].
  cbn [stages_ok]. intros ((m & Hm & Hlen & Hok) & Hrf & Hrest).
  destruct (Hframe (index spec)) as [Hmod Hret]; [left|].
  split; [exists m; by rewrite Hmod|]. split; [by rewrite Hret|].
  apply IH; [|done]. intros i Hi. apply Hframe. by right.
Qed.

Lemma add_stages_spec c specs : ∀ i0 cin self,
  0 < NUM_GROUPS c →
  0 < WIDTH_PER_GROUP c →
  0 < RES2_OUT_CHANNELS c →
  0 < cin →
  1 ≤ i0 →
  index <$> specs = seqZ i0 (Z.of_nat (length specs)) →
  Forall (λ spec, 0 < block_count spec) specs →
  (1 < i0 → cin = stage_out_channels c (i0 - 1)) →
  ∃ self',
    add_stages BottleneckWithBatchNorm c specs cin self = Ok self'
    ∧ self_stem self' = self_stem self
    ∧ self_stages self' = self_stages self ++ (layer_name <$> (index <$> specs))
    ∧ (∀ name, name ∉ layer_name <$> (index <$> specs) →
         self_modules self' !! name = self_modules self !! name
         ∧ self_return_features self' !! name
           = self_return_features self !! name)
    ∧ stages_ok c self' specs cin
    ∧ (∀ i m, i ∈ index <$> specs →
         self_modules self' !! layer_name i = Some m →
         Forall (λ f, f = true) (stage_flags m)).
Proof.
  induction specs as [|spec rest IH];
    intros i0 cin self Hg HW HR Hcin0 Hi0 Hidx Hbc Hcin.
  - exists self. cbn [add_stages fmap list_fmap]. rewrite app_nil_r.
    repeat split; try done. intros i m Hi. by apply elem_of_nil in Hi.
  - apply Forall_cons in Hbc as [Hbc1 Hbc].
    cbn [length] in Hidx. rewrite Nat2Z.inj_succ, seqZ_cons in Hidx by lia.
    rewrite fmap_cons in Hidx. injection Hidx as Hspec Hidx.
    rewrite Z.pred_succ in Hidx.
    set (cout := stage_out_channels c (index spec)).
    assert (Hstride : cin = cout → stage_stride (index spec) = 1).
    { unfold stage_stride. destruct (decide (1 < index spec)) as [Hlt|]; [|done].
      intros Heq. exfalso. subst cout.
      rewrite Hspec in Hlt, Heq. rewrite (Hcin Hlt) in Heq.
      replace i0 with ((i0 - 1) + 1) in Heq at 2 by lia.
      rewrite stage_out_channels_succ in Heq by lia.
      pose proof (stage_out_channels_pos c (i0 - 1) HR). lia. }
    destruct (make_blocks_ok (Z.to_nat (block_count spec)) cin
                (NUM_GROUPS c * WIDTH_PER_GROUP c * 2 ^ (index spec - 1))
                cout (NUM_GROUPS c) (STRIDE_IN_1X1 c)
                (stage_stride (index spec)) Hg)
      as (m & Hm & Hlen & Hfl & Hchain); [|lia| | |exact Hstride|].
    { rewrite <- Z.mul_assoc, Z.mul_comm. by apply Z_mod_mult. }
    { apply Z.lt_le_incl, Z.mul_pos_pos; [by apply Z.mul_pos_pos|].
      apply Z.pow_pos_nonneg; lia. }
    { apply Z.lt_le_incl. subst cout. apply stage_out_channels_pos; lia. }
    set (self1 :=
      {| self_stem := self_stem self;
         self_modules := <[layer_name (index spec) := m]> (self_modules self);
         self_stages := self_stages self ++ [layer_name (index spec)];
         self_return_features :=
           <[layer_name (index spec) := return_features spec]>
             (self_return_features self);
         self_att_size := self_att_size self |}).
    destruct (IH (Z.succ i0) cout self1 Hg HW HR) as
      (self' & Hadd & Hstem & Hstages & Hframe & Hok & Hflags);
      [subst cout; apply stage_out_channels_pos; lia|lia|done|done| |].
    { intros _. subst cout. rewrite Hspec. f_equal. lia. }
    assert (Hfresh : layer_name (index spec) ∉ layer_name <$> (index <$> rest)).
    { intros Hin. apply list_elem_of_fmap in Hin as (j & Hj & Hin).
      apply layer_name_inj in Hj. subst j. rewrite Hidx in Hin.
      apply elem_of_seqZ in Hin. lia. }
    destruct (Hframe _ Hfresh) as [Hmod Hret].
    exists self'. split; [|split; [|split; [|split; [|split]]]].
    + cbn [add_stages]. unfold _make_stage.
      replace ((if decide (1 < index spec) then 1 else 0) + 1)
        with (stage_stride (index spec))
        by (unfold stage_stride; by destruct (decide (1 < index spec))).
      change (RES2_OUT_CHANNELS c * 2 ^ (index spec - 1)) with cout.
      rewrite Hm. cbn [and_then]. exact Hadd.
    + by rewrite Hstem.
    + rewrite Hstages. unfold self1. simpl. by rewrite <- app_assoc.
    + intros name Hname. rewrite !fmap_cons, not_elem_of_cons in Hname.
      destruct Hname as [Hne Hname].
      destruct (Hframe name Hname) as [H1 H2]. rewrite H1, H2.
      unfold self1. simpl. by rewrite !lookup_insert_ne.
    + cbn [stages_ok]. split; [|split; [|exact Hok]].
      * exists m. rewrite Hmod. unfold self1. simpl. rewrite lookup_insert_eq.
        split; [done|]. split; [done|].
        destruct m as [|b bs]; [|exact Hchain].
        simpl in Hlen. lia.
      * rewrite Hret. unfold self1. simpl. by rewrite lookup_insert_eq.
    + intros i m' Hi Hm'. rewrite fmap_cons in Hi.
      apply elem_of_cons in Hi as [->|Hi]; [|by eapply Hflags].
      rewrite Hmod in Hm'. unfold self1 in Hm'. simpl in Hm'.
      rewrite lookup_insert_eq in Hm'. by injection Hm' as <-.
Qed.

(** ** Freezing *)

Lemma freeze_each_app self a : ∀ b,
  freeze_each self (a ++ b)
    = let? self' := freeze_each self a in freeze_each self' b.
Proof.
  revert self. induction a as [|i a IH]; intros self b; [done|].
  cbn [app freeze_each]. destruct (freeze_one self i) as [s1|e]; [|done].
  cbn [and_then]. apply IH.
Qed.

Lemma frozen_below_0 self : frozen_below 0 self self.
Proof.
  unfold frozen_below. repeat split.
  intros i. destruct (decide (1 ≤ i < 0)); [lia|done].
Qed.

Lemma freeze_one_next self0 self j :
  0 ≤ j →
  frozen_below j self0 self →
  (1 ≤ j → is_Some (self_modules self0 !! layer_name j)) →
  ∃ self', freeze_one self j = Ok self' ∧ frozen_below (j + 1) self0 self'.
Proof.
  intros Hj (Hstem & Hmod & Hst & Hrf & Hatt) Hex. unfold freeze_one.
  destruct (decide (j = 0)) as [->|Hne].
  - eexists. split; [reflexivity|]. unfold frozen_below. simpl.
    rewrite Hstem. repeat split; try done.
    intros i. rewrite Hmod.
    destruct (decide (1 ≤ i < 0)); [lia|].
    destruct (decide (1 ≤ i < 0 + 1)); [lia|done].
  - destruct Hex as [m Hm]; [lia|].
    pose proof (Hmod j) as Hmj. destruct (decide (1 ≤ j < j)); [lia|].
    rewrite Hm in Hmj. rewrite Hmj.
    eexists. split; [reflexivity|]. unfold frozen_below. simpl.
    split.
    { rewrite Hstem. destruct (decide (0 < j)); destruct (decide (0 < j + 1));
        (done || lia). }
    split; [|done].
    intros i. destruct (decide (i = j)) as [->|Hij].
    + rewrite lookup_insert_eq, Hm.
      destruct (decide (1 ≤ j < j + 1)); [done|lia].
    + rewrite lookup_insert_ne by (intros ?%layer_name_inj; done).
      rewrite Hmod.
      destruct (decide (1 ≤ i < j)); destruct (decide (1 ≤ i < j + 1));
        (done || lia).
Qed.

Lemma freeze_each_upto self0 (n : nat) :
  (∀ i, 1 ≤ i < Z.of_nat n → is_Some (self_modules self0 !! layer_name i)) →
  ∃ self,
    freeze_each self0 (seqZ 0 (Z.of_nat n)) = Ok self
    ∧ frozen_below (Z.of_nat n) self0 self.
Proof.
  induction n as [|n IH]; intros Hex.
  - exists self0. split; [done|]. apply frozen_below_0.
  - destruct IH as (self & Hfr & Hinv); [intros i Hi; apply Hex; lia|].
    destruct (freeze_one_next self0 self (Z.of_nat n)) as (self' & Hone & Hinv');
      [lia|done|intros ?; apply Hex; lia|].
    exists self'. rewrite seqZ_S, freeze_each_app, Hfr. cbn [and_then freeze_each].
    rewrite Z.add_0_l, Hone. cbn [and_then].
    split; [done|]. by rewrite Nat2Z.inj_succ, <- Z.add_1_r.
Qed.

Lemma freeze_encoder_Ok self0 k :
  (∀ i, 1 ≤ i < k → is_Some (self_modules self0 !! layer_name i)) →
  ∃ self, _freeze_encoder self0 k = Ok self ∧ frozen_below k self0 self.
Proof.
  intros Hex. unfold _freeze_encoder.
  destruct (decide (0 ≤ k)) as [Hk|Hk].
  - destruct (freeze_each_upto self0 (Z.to_nat k)) as (self & Hfr & Hinv).
    + intros i Hi. apply Hex. lia.
    + rewrite Z2Nat.id in Hfr, Hinv by done. by exists self.
  - exists self0. rewrite seqZ_nil by lia. split; [done|].
    unfold frozen_below. destruct (decide (0 < k)); [lia|].
    repeat split. intros i. destruct (decide (1 ≤ i < k)); [lia|done].
Qed.

Lemma freeze_encoder_missing self0 k j :
  1 ≤ j < k →
  (∀ i, 1 ≤ i < j → is_Some (self_modules self0 !! layer_name i)) →
  self_modules self0 !! layer_name j = None →
  _freeze_encoder self0 k = Raise AttributeError.
Proof.
  intros Hj Hex Hnone. unfold _freeze_encoder.
  destruct (freeze_each_upto self0 (Z.to_nat j)) as (self & Hfr & Hinv).
  { intros i Hi. apply Hex. lia. }
  rewrite Z2Nat.id in Hfr, Hinv by lia.
  replace k with (j + (k - j)) by lia.
  rewrite seqZ_app, freeze_each_app, Hfr by lia. cbn [and_then].
  rewrite Z.add_0_l, seqZ_cons by lia. cbn [freeze_each].
  unfold freeze_one. destruct (decide (j = 0)); [lia|].
  destruct Hinv as (_ & Hmod & _). rewrite (Hmod j).
  destruct (decide (1 ≤ j < j)); [lia|]. by rewrite Hnone.
Qed.

Lemma block_ok_freeze cin cout s b :
  block_ok cin cout s b → block_ok cin cout s (freeze_block b).
Proof.
  unfold block_ok. destruct b as [[[dc dn]|] c1 n1 c2 n2 c3 n3]; simpl; tauto.
Qed.

Lemma stage_ok_freeze cin cout s m :
  stage_ok cin cout s m → stage_ok cin cout s (freeze_block <$> m).
Proof.
  destruct m as [|b rest]; [done|]. simpl. intros [Hb Hrest].
  split; [by apply block_ok_freeze|].
  apply Forall_fmap. eapply Forall_impl; [exact Hrest|].
  intros b'. apply block_ok_freeze.
Qed.

Lemma stages_ok_frozen c self0 self k specs : ∀ cin,
  frozen_below k self0 self →
  stages_ok c self0 specs cin → stages_ok c self specs cin.
Proof.
  intros cin (_ & Hmod & _ & Hrf & _). revert cin.
  induction specs as [|spec rest IH]; intros cin; [done|].
  cbn [stages_ok]. intros ((m & Hm & Hlen & Hok) & Hret & Hrest).
  split; [|split; [by rewrite Hrf|by apply IH]].
  rewrite (Hmod (index spec)), Hm.
  destruct (decide (1 ≤ index spec < k)).
  - exists (freeze_block <$> m). split; [done|].
    split; [by rewrite length_fmap|]. by apply stage_ok_freeze.
  - by exists m.
Qed.

Lemma block_flags_freeze b : Forall (λ f, f = false) (block_flags (freeze_block b)).
Proof.
  destruct b as [[[dc dn]|] c1 n1 c2 n2 c3 n3]; unfold block_flags; simpl;
    repeat constructor.
Qed.

Lemma stage_flags_freeze m :
  Forall (λ f, f = false) (stage_flags (freeze_block <$> m)).
Proof.
  unfold stage_flags. induction m as [|b m IH]; [constructor|].
  simpl. apply Forall_app. split; [apply block_flags_freeze|exact IH].
Qed.

(** ** [ResNet.__init__] *)

Lemma registered_regular name specs :
  _STAGE_SPECS !! name = Some specs → regular specs.
Proof.
  unfold _STAGE_SPECS. intros H.
  repeat (rewrite lookup_insert in H;
          destruct (decide _) in H;
          [injection H as <-; unfold regular; simpl;
           repeat split; repeat constructor; lia|]).
  by rewrite lookup_empty in H.
Qed.

Lemma stages_ok_lookup c self specs : ∀ cin i,
  stages_ok c self specs cin →
  i ∈ index <$> specs →
  is_Some (self_modules self !! layer_name i).
Proof.
  induction specs as [|spec rest IH]; intros cin i Hok Hi.
  - by apply elem_of_nil in Hi.
  - cbn [stages_ok] in Hok. destruct Hok as ((m & Hm & _) & _ & Hrest).
    rewrite fmap_cons in Hi. apply elem_of_cons in Hi as [->|Hi]; [by eexists|].
    by eapply IH.
Qed.

Lemma getitem_stem name :
  getitem _STEM_MODULES name
    = if decide (name = "StemWithBatchNorm") then Ok StemWithBatchNorm
      else Raise KeyError.
Proof.
  unfold getitem, _STEM_MODULES.
  destruct (decide (name = "StemWithBatchNorm")) as [->|Hne].
  - by rewrite lookup_singleton_eq.
  - by rewrite lookup_singleton_ne.
Qed.

Lemma getitem_transformation name :
  getitem _TRANSFORMATION_MODULES name
    = if decide (name = "BottleneckWithBatchNorm")
      then Ok BottleneckWithBatchNorm
      else Raise KeyError.
Proof.
  unfold getitem, _TRANSFORMATION_MODULES.
  destruct (decide (name = "BottleneckWithBatchNorm")) as [->|Hne].
  - by rewrite lookup_singleton_eq.
  - by rewrite lookup_singleton_ne.
Qed.

(** The encoder before it is frozen, for a valid configuration. *)
Lemma ResNet_init_built c specs :
  valid_cfg c →
  _STAGE_SPECS !! CONV_BODY c = Some specs →
  ∃ self0,
    ResNet_init c
      = (let? self := _freeze_encoder self0 (FREEZE_CONV_BODY_AT c) in
         Ok {| self_stem := self_stem self;
               self_modules := self_modules self;
               self_stages := self_stages self;
               self_return_features := self_return_features self;
               self_att_size := ATT_SIZE c |})
    ∧ self_stem self0
      = Build_Stem (Build_Conv2d 3 (STEM_OUT_CHANNELS c) 7 2 3 1 true)
                   (new_BatchNorm2d (STEM_OUT_CHANNELS c))
    ∧ self_stages self0 = layer_name <$> seqZ 1 (Z.of_nat (length specs))
    ∧ (∀ i, ¬ 1 ≤ i ≤ Z.of_nat (length specs) →
         self_modules self0 !! layer_name i = None)
    ∧ stages_ok c self0 specs (STEM_OUT_CHANNELS c)
    ∧ (∀ i m, 1 ≤ i ≤ Z.of_nat (length specs) →
         self_modules self0 !! layer_name i = Some m →
         Forall (λ f, f = true) (stage_flags m)).
Proof.
  intros (Hstem & Htrans & _ & HG & HW & HS & HR) Hspecs.
  destruct (registered_regular _ _ Hspecs) as (Hidx & Hbc & _).
  set (start := {| self_stem :=
                     Build_Stem (Build_Conv2d 3 (STEM_OUT_CHANNELS c) 7 2 3 1 true)
                                (new_BatchNorm2d (STEM_OUT_CHANNELS c));
                   self_modules := ∅; self_stages := [];
                   self_return_features := ∅; self_att_size := 0 |}).
  destruct (add_stages_spec c specs 1 (STEM_OUT_CHANNELS c) start)
    as (self0 & Hadd & Hst & Hstages & Hframe & Hok & Hflags);
    [done|done|done|done|lia|done|done|lia|].
  exists self0. split; [|split; [|split; [|split; [|split]]]].
  - unfold ResNet_init.
    rewrite getitem_stem, Hstem, getitem_transformation, Htrans. simpl.
    unfold getitem. rewrite Hspecs. cbn [and_then].
    unfold StemWithBatchNorm. rewrite new_Conv2d_ungrouped by lia.
    cbn [and_then].
    fold start. rewrite Hadd. reflexivity.
  - by rewrite Hst.
  - rewrite Hstages, Hidx. done.
  - intros i Hi. destruct (Hframe (layer_name i)) as [-> _]; [|done].
    intros Hin. apply list_elem_of_fmap in Hin as (j & Hj & Hin).
    apply layer_name_inj in Hj. subst j. rewrite Hidx in Hin.
    apply elem_of_seqZ in Hin. lia.
  - exact Hok.
  - intros i m Hi Hm. eapply Hflags; [|exact Hm].
    rewrite Hidx. apply elem_of_seqZ. lia.
Qed.

Lemma built_stage_exists c self0 specs i :
  index <$> specs = seqZ 1 (Z.of_nat (length specs)) →
  stages_ok c self0 specs (STEM_OUT_CHANNELS c) →
  1 ≤ i ≤ Z.of_nat (length specs) →
  is_Some (self_modules self0 !! layer_name i).
Proof.
  intros Hidx Hok Hi. eapply stages_ok_lookup; [exact Hok|].
  rewrite Hidx. apply elem_of_seqZ. lia.
Qed.

(** What [ResNet.__init__] builds for a valid configuration. *)
Lemma ResNet_init_net c specs :
  valid_cfg c →
  _STAGE_SPECS !! CONV_BODY c = Some specs →
  FREEZE_CONV_BODY_AT c ≤ Z.of_nat (length specs) + 1 →
  ∃ net,
    ResNet_init c = Ok net
    ∧ self_stages net = layer_name <$> seqZ 1 (Z.of_nat (length specs))
    ∧ (in_channels (stem_conv1 (self_stem net)),
       out_channels (stem_conv1 (self_stem net)),
       num_features (stem_bn1 (self_stem net)))
      = (3, STEM_OUT_CHANNELS c, STEM_OUT_CHANNELS c)
    ∧ (kernel_size (stem_conv1 (self_stem net)),
       stride (stem_conv1 (self_stem net)),
       padding (stem_conv1 (self_stem net))) = (7, 2, 3)
    ∧ stages_ok c net specs (STEM_OUT_CHANNELS c)
    ∧ self_att_size net = ATT_SIZE c.
Proof.
  intros Hvalid Hspecs Hfreeze.
  destruct (ResNet_init_built c specs Hvalid Hspecs)
    as (self0 & Hinit & Hstem & Hstages & _ & Hok & _).
  destruct (registered_regular _ _ Hspecs) as (Hidx & _ & _).
  destruct (freeze_encoder_Ok self0 (FREEZE_CONV_BODY_AT c))
    as (self & Hfr & Hinv).
  { intros i Hi. eapply built_stage_exists; [done..|lia]. }
  rewrite Hinit, Hfr. cbn [and_then].
  eexists. split; [reflexivity|]. simpl.
  pose proof Hinv as (Hs & _ & Hst & _).
  split; [by rewrite Hst|].
  rewrite Hs, Hstem.
  split; [by destruct (decide (0 < FREEZE_CONV_BODY_AT c))|].
  split; [by destruct (decide (0 < FREEZE_CONV_BODY_AT c))|].
  split; [|done].
  eapply stages_ok_frame; [|eapply stages_ok_frozen; [exact Hinv|exact Hok]].
  done.
Qed.

(** X7: for a valid configuration whose freezing point does not exceed
    the stages by more than one, [ResNet.__init__] builds an encoder
    whose stages are named [layer1], [layer2], ... in order, whose stem
    takes 3 channels to [STEM_OUT_CHANNELS], and whose stages follow one
    another: the stage of index [i] has its [block_count] blocks, takes
    the width of the stage before it to [RES2_OUT_CHANNELS * 2 ** (i - 1)]
    and has stride 1 for [i = 1] and 2 otherwise. *)
Theorem ResNet_init_well_formed c specs :
  valid_cfg c →
  _STAGE_SPECS !! CONV_BODY c = Some specs →
  FREEZE_CONV_BODY_AT c ≤ Z.of_nat (length specs) + 1 →
  ∃ net,
    ResNet_init c = Ok net
    ∧ self_stages net = layer_name <$> seqZ 1 (Z.of_nat (length specs))
    ∧ (in_channels (stem_conv1 (self_stem net)),
       out_channels (stem_conv1 (self_stem net)),
       num_features (stem_bn1 (self_stem net)))
      = (3, STEM_OUT_CHANNELS c, STEM_OUT_CHANNELS c)
    ∧ (kernel_size (stem_conv1 (self_stem net)),
       stride (stem_conv1 (self_stem net)),
       padding (stem_conv1 (self_stem net))) = (7, 2, 3)
    ∧ stages_ok c net specs (STEM_OUT_CHANNELS c)
    ∧ self_att_size net = ATT_SIZE c.
Proof. apply ResNet_init_net. Qed.

(** X8: [ResNet.__init__] freezes the stem when the freezing point is at
    least 1 and the stages of the indices below the freezing point, and
    leaves every other parameter requiring a gradient; a freezing point
    more than one beyond the number of stages makes it fail with an
    attribute error, [_freeze_encoder] asking for a stage that does not
    exist. *)
Theorem ResNet_init_freezes c specs :
  valid_cfg c →
  _STAGE_SPECS !! CONV_BODY c = Some specs →
  (FREEZE_CONV_BODY_AT c ≤ Z.of_nat (length specs) + 1 →
   ∃ net,
     ResNet_init c = Ok net
     ∧ Forall (λ f, f = bool_decide (FREEZE_CONV_BODY_AT c ≤ 0))
         (stem_flags (self_stem net))
     ∧ ∀ i, 1 ≤ i ≤ Z.of_nat (length specs) →
         ∃ m, self_modules net !! layer_name i = Some m
              ∧ Forall (λ f, f = bool_decide (FREEZE_CONV_BODY_AT c ≤ i))
                  (stage_flags m))
  ∧ (Z.of_nat (length specs) + 1 < FREEZE_CONV_BODY_AT c →
     ResNet_init c = Raise AttributeError).
Proof.
  intros Hvalid Hspecs.
  destruct (ResNet_init_built c specs Hvalid Hspecs)
    as (self0 & Hinit & Hstem & Hstages & Hnone & Hok & Hflags).
  destruct (registered_regular _ _ Hspecs) as (Hidx & _ & _).
  split.
  - intros Hfreeze.
    destruct (freeze_encoder_Ok self0 (FREEZE_CONV_BODY_AT c))
      as (self & Hfr & Hs & Hmod & _).
    { intros i Hi. eapply built_stage_exists; [done..|lia]. }
    rewrite Hinit, Hfr. cbn [and_then].
    eexists. split; [reflexivity|]. simpl. split.
    + rewrite Hs, Hstem.
      destruct (decide (0 < FREEZE_CONV_BODY_AT c)).
      * rewrite bool_decide_eq_false_2 by lia. repeat constructor.
      * rewrite bool_decide_eq_true_2 by lia. repeat constructor.
    + intros i Hi.
      destruct (built_stage_exists c self0 specs i Hidx Hok Hi) as [m Hm].
      rewrite (Hmod i), Hm.
      destruct (decide (1 ≤ i < FREEZE_CONV_BODY_AT c)).
      * eexists. split; [reflexivity|].
        rewrite bool_decide_eq_false_2 by lia. apply stage_flags_freeze.
      * eexists. split; [reflexivity|].
        rewrite bool_decide_eq_true_2 by lia. by eapply Hflags.
  - intros Hbeyond. rewrite Hinit.
    rewrite (freeze_encoder_missing self0 _ (Z.of_nat (length specs) + 1));
      [done|lia| |apply Hnone; lia].
    intros i Hi. eapply built_stage_exists; [done..|lia].
Qed.

(** X9: a stem, a conv body or a transformation that is not registered
    makes [ResNet.__init__] fail with a key error. *)
Theorem ResNet_init_unregistered c :
  STEM_FUNC c ≠ "StemWithBatchNorm"
  ∨ _STAGE_SPECS !! CONV_BODY c = None
  ∨ TRANS_FUNC c ≠ "BottleneckWithBatchNorm" →
  ResNet_init c = Raise KeyError.
Proof.
  intros H. unfold ResNet_init.
  rewrite getitem_stem, getitem_transformation. unfold getitem.
  destruct (decide (STEM_FUNC c = "StemWithBatchNorm")); [|done].
  cbn [and_then].
  destruct (_STAGE_SPECS !! CONV_BODY c) eqn:Hs; [|done]. cbn [and_then].
  destruct (decide (TRANS_FUNC c = "BottleneckWithBatchNorm")); [|done].
  destruct H as [?|[?|?]]; done.
Qed.

(** ** [ResNet.forward] *)

Section forward.
Context {T : Type} `{Backend T}.

Lemma forward_stages_none (self : ResNet) names : ∀ (x : T) outputs,
  (∀ name, name ∈ names → self_return_features self !! name = Some false) →
  forward_stages self names x outputs
    = match body_stages self names x with
      | Ok y => Ok (y, outputs)
      | Raise e => Raise e
      end.
Proof.
  induction names as [|name names IH]; intros x outputs Hrf; [done|].
  cbn [forward_stages body_stages].
  destruct (self_modules self !! name) as [m|]; [|done].
  destruct (Sequential_forward m x) as [x'|e]; [|done]. cbn [and_then].
  rewrite (Hrf name) by left. apply IH. intros n Hn. apply Hrf. by right.
Qed.

Lemma forward_stages_last (self : ResNet) names final : ∀ (x : T) outputs,
  (∀ name, name ∈ names → self_return_features self !! name = Some false) →
  self_return_features self !! final = Some true →
  forward_stages self (names ++ [final]) x outputs
    = match body_stages self (names ++ [final]) x with
      | Ok y => Ok (y, outputs ++ [y])
      | Raise e => Raise e
      end.
Proof.
  induction names as [|name names IH]; intros x outputs Hrf Hfinal.
  - cbn [app forward_stages body_stages].
    destruct (self_modules self !! final) as [m|]; [|done].
    destruct (Sequential_forward m x) as [x'|e]; [|done]. cbn [and_then].
    by rewrite Hfinal.
  - cbn [app forward_stages body_stages].
    destruct (self_modules self !! name) as [m|]; [|done].
    destruct (Sequential_forward m x) as [x'|e]; [|done]. cbn [and_then].
    rewrite (Hrf name) by left. apply IH; [|done].
    intros n Hn. apply Hrf. by right.
Qed.

(** X10: an encoder none of whose stages returns its features, one
    without any stage included, cannot complete [forward]: once the stem
    and the stages have run, the list of outputs is empty and taking its
    last element raises an index error. *)
Theorem ResNet_forward_no_features (self : ResNet) (x : T) :
  (∀ name, name ∈ self_stages self →
           self_return_features self !! name = Some false) →
  ResNet_forward self x
    = match body_forward self x with
      | Ok _ => Raise IndexError
      | Raise e => Raise e
      end.
Proof.
  intros Hrf. unfold ResNet_forward, body_forward.
  destruct (Stem_forward (self_stem self) x) as [x'|e]; [|done].
  cbn [and_then]. rewrite (forward_stages_none self _ x' [] Hrf).
  by destruct (body_stages self (self_stages self) x').
Qed.

End forward.

Lemma stages_ok_rf c self specs : ∀ cin spec,
  stages_ok c self specs cin →
  spec ∈ specs →
  self_return_features self !! layer_name (index spec)
    = Some (return_features spec).
Proof.
  induction specs as [|sp rest IH]; intros cin spec Hok Hin.
  - by apply elem_of_nil in Hin.
  - cbn [stages_ok] in Hok. destruct Hok as (_ & Hrf & Hrest).
    apply elem_of_cons in Hin as [->|Hin]; [done|]. by eapply IH.
Qed.

Lemma regular_snoc specs :
  regular specs →
  ∃ init final,
    specs = init ++ [final]
    ∧ Forall (λ spec, return_features spec = false) init
    ∧ return_features final = true.
Proof.
  intros (_ & _ & Hrf).
  destruct specs as [|sp specs _] using rev_ind.
  - simpl in Hrf. discriminate Hrf.
  - exists specs, sp. split; [done|].
    rewrite fmap_app, length_app in Hrf. simpl in Hrf.
    apply app_inj_2 in Hrf as [Hinit Hfinal]; [|done].
    split; [|by injection Hfinal].
    apply Forall_forall. intros spec Hin.
    assert (Hmem : return_features spec ∈ return_features <$> specs)
      by (apply list_elem_of_fmap; eauto).
    rewrite Hinit in Hmem. by apply elem_of_replicate in Hmem as [? _].
Qed.

(** X11: for a valid configuration, [forward] of the encoder that
    [ResNet.__init__] builds never fails for want of an output: on
    tensors of any kind it runs the stem and every stage in order and
    returns the means and the pooled map of the features of the last
    stage, or the error of the first operation that fails. *)
Theorem ResNet_forward_last_stage c specs :
  valid_cfg c →
  _STAGE_SPECS !! CONV_BODY c = Some specs →
  FREEZE_CONV_BODY_AT c ≤ Z.of_nat (length specs) + 1 →
  ∃ net,
    ResNet_init c = Ok net
    ∧ ∀ (T : Type) (B : Backend T) (x : T),
        ResNet_forward net x
          = (let? feature := body_forward net x in
             let? att := adaptive_avg_pool2d feature (ATT_SIZE c) (ATT_SIZE c) in
             let? m := mean feature 3 in
             let? fc := mean m 2 in
             Ok (fc, att)).
Proof.
  intros Hvalid Hspecs Hfreeze.
  destruct (ResNet_init_net c specs Hvalid Hspecs Hfreeze)
    as (net & Hinit & Hstages & _ & _ & Hok & Hatt).
  pose proof (registered_regular _ _ Hspecs) as Hreg.
  destruct (regular_snoc specs Hreg) as (init & final & -> & Hinit_rf & Hfinal).
  destruct Hreg as (Hidx & _ & _).
  exists net. split; [done|]. intros T B x.
  unfold ResNet_forward, body_forward.
  destruct (Stem_forward (self_stem net) x) as [x'|e]; [|done].
  cbn [and_then]. rewrite Hstages, <- Hidx, !fmap_app.
  change (layer_name <$> (index <$> [final])) with [layer_name (index final)].
  rewrite forward_stages_last.
  - destruct (body_stages net _ x') as [y|e]; [|done]. cbn [and_then].
    rewrite last_snoc, Hatt. reflexivity.
  - intros name Hname.
    apply list_elem_of_fmap in Hname as (i & -> & Hi).
    apply list_elem_of_fmap in Hi as (spec & -> & Hin).
    rewrite (stages_ok_rf c net _ _ spec Hok) by (apply elem_of_app; by left).
    rewrite Forall_forall in Hinit_rf. by rewrite (Hinit_rf spec Hin).
  - simpl. rewrite (stages_ok_rf c net _ _ final Hok), Hfinal; [done|].
    apply elem_of_app. right. left.
Qed.

(** ** Instances of the further properties *)

Lemma one_batch_indexable : Forall indexable one_batch.
Proof. repeat constructor. Defined.

Lemma two_batches_indexable : Forall indexable two_batches.
Proof. repeat constructor. Defined.

Lemma r50_c4_valid : valid_cfg r50_c4.
Proof. unfold valid_cfg. simpl. repeat split; done. Defined.

Lemma compute_on_dataset_short_ids_witness :
  compute_on_dataset (one_batch ++ short_batch :: one_batch) 3
    = ([EvModelEval;
        EvForward 0; EvCriterion 0; EvDecodeSearch 0 3; EvDecodeSequence 0;
        EvForward 1; EvCriterion 1; EvDecodeSearch 1 3; EvDecodeSequence 1],
       Raise IndexError).
Proof.
  apply (compute_on_dataset_short_ids one_batch short_batch one_batch 3).
  - exact one_batch_indexable.
  - simpl. lia.
Defined.

Lemma loop_done_ids_are_predicted_witness :
  ∃ st,
    result (loop 3 0 two_batches init_state) = Ok st
    ∧ ∀ z, is_Some (done_ids st !! z) ↔ ∃ c, entry z c ∈ predictions st.
Proof.
  apply (loop_done_ids_are_predicted two_batches 3).
  exact two_batches_indexable.
Defined.

Lemma compute_on_dataset_predictions_grow_witness :
  ∃ ps loss loss',
    result (compute_on_dataset one_batch 3) = Ok (ps, loss)
    ∧ result (compute_on_dataset (one_batch ++ two_batches) 3)
      = Ok (ps ++ [entry 9 "a bird"], loss').
Proof.
  destruct (compute_on_dataset_predictions_grow one_batch two_batches 3)
    as (ps & loss & loss' & H1 & H2).
  - discriminate.
  - repeat constructor.
  - exists ps, loss, loss'. split; [exact H1|]. rewrite H2. reflexivity.
Defined.

Lemma inference_single_process_witness :
  result (inference single two_batches "coco" 3)
    = Ok (VFloat 3.0%float,
          VDict [(AStr "image_id", VStr "caption")],
          VDict [(AStr "CIDEr", VFloat 1.0%float)]).
Proof.
  rewrite (inference_single_process single two_batches "coco" 3
             (VDict [(AStr "CIDEr", VFloat 1.0%float)])).
  - reflexivity.
  - reflexivity.
  - reflexivity.
  - discriminate.
  - exact two_batches_indexable.
  - reflexivity.
Defined.

Lemma test_single_process_witness :
  test single two_batches "coco" 3 true
    = (trace (inference single two_batches "coco" 3)
         ++ [EvOpenFile;
             EvJsonDump (VDict [(AStr "image_id", VStr "caption")]);
             EvLog; EvLog],
       Raise TypeError)
  ∧ test single two_batches "coco" 3 false
    = (trace (inference single two_batches "coco" 3)
         ++ [EvOpenFile;
             EvJsonDump (VDict [(AStr "image_id", VStr "caption")]);
             EvLog; EvLog],
       Ok tt).
Proof.
  assert (Hall := test_single_process single two_batches "coco" 3
                    [(AStr "CIDEr", VFloat 1.0%float)]).
  split.
  - rewrite (Hall eq_refl eq_refl).
    + reflexivity.
    + discriminate.
    + exact two_batches_indexable.
    + reflexivity.
    + repeat constructor. by eexists.
  - rewrite (Hall eq_refl eq_refl).
    + reflexivity.
    + discriminate.
    + exact two_batches_indexable.
    + reflexivity.
    + repeat constructor. by eexists.
Defined.

Lemma make_stage_chain_witness :
  ∃ blocks,
    _make_stage BottleneckWithBatchNorm 256 128 512 4 1 true 2 = Ok blocks
    ∧ length blocks = 4%nat
    ∧ stage_ok 256 512 2 blocks
    ∧ match blocks with
      | [] => False
      | b :: rest =>
        downsample b ≠ None
        ∧ (stride (conv1 b), stride (conv2 b)) = (2, 1)
        ∧ Forall (λ b', downsample b' = None
                        ∧ (stride (conv1 b'), stride (conv2 b')) = (1, 1)) rest
      end.
Proof.
  destruct (make_stage_chain 256 128 512 4 1 true 2)
    as (blocks & Hb & Hlen & Hok & _ & Hlayout).
  - reflexivity.
  - reflexivity.
  - reflexivity.
  - reflexivity.
  - reflexivity.
  - reflexivity.
  - discriminate.
  - exists blocks. split; [exact Hb|]. split; [exact Hlen|].
    split; [apply Hok; lia|].
    destruct blocks as [|b rest]; [discriminate Hlen|].
    destruct Hlayout as (Hds & Hst & Hrest).
    split; [|split; [exact Hst|exact Hrest]].
    intros Hnone. apply Hds in Hnone. discriminate Hnone.
Defined.

Lemma ResNet_init_well_formed_witness :
  ∃ net,
    ResNet_init r50_c4 = Ok net
    ∧ self_stages net = ["layer1"; "layer2"; "layer3"]
    ∧ stages_ok r50_c4 net ResNet50StagesTo4 64.
Proof.
  destruct (ResNet_init_well_formed r50_c4 ResNet50StagesTo4)
    as (net & Hinit & Hstages & _ & _ & Hok & _).
  - exact r50_c4_valid.
  - reflexivity.
  - simpl. lia.
  - exists net. split; [exact Hinit|]. split; [exact Hstages|exact Hok].
Defined.

Lemma ResNet_init_freezes_witness :
  (∃ net,
     ResNet_init r50_c4 = Ok net
     ∧ Forall (λ f, f = false) (stem_flags (self_stem net))
     ∧ ∃ m, self_modules net !! "layer2" = Some m
            ∧ Forall (λ f, f = true) (stage_flags m))
  ∧ ResNet_init r50_c4_frozen_5 = Raise AttributeError.
Proof.
  split.
  - destruct (proj1 (ResNet_init_freezes r50_c4 ResNet50StagesTo4
                       r50_c4_valid eq_refl))
      as (net & Hinit & Hstem & Hlayers).
    + simpl. lia.
    + exists net. split; [exact Hinit|]. split; [exact Hstem|].
      apply (Hlayers 2). simpl. lia.
  - apply (proj2 (ResNet_init_freezes r50_c4_frozen_5 ResNet50StagesTo4
                    r50_c4_valid eq_refl)).
    simpl. lia.
Defined.

Lemma ResNet_init_unregistered_witness : ResNet_init r18 = Raise KeyError.
Proof.
  apply ResNet_init_unregistered. right. left. reflexivity.
Defined.

Lemma ResNet_forward_no_features_witness :
  @body_forward nat counting one_silent_stage 0%nat = Ok 18%nat
  ∧ @ResNet_forward nat counting one_silent_stage 0%nat = Raise IndexError
  ∧ @ResNet_forward nat counting stem_only 0%nat = Raise IndexError.
Proof.
  split; [reflexivity|]. split.
  - rewrite (@ResNet_forward_no_features nat counting one_silent_stage 0%nat).
    + reflexivity.
    + intros name Hname. apply list_elem_of_singleton in Hname.
      rewrite Hname. reflexivity.
  - rewrite (@ResNet_forward_no_features nat counting stem_only 0%nat).
    + reflexivity.
    + intros name Hname. by apply elem_of_nil in Hname.
Defined.

Lemma ResNet_forward_last_stage_witness :
  ∃ net,
    ResNet_init r50_c4 = Ok net
    ∧ @ResNet_forward nat counting net 0%nat
      = (let? feature := @body_forward nat counting net 0%nat in
         Ok (S (S feature), S feature)).
Proof.
  destruct (ResNet_forward_last_stage r50_c4 ResNet50StagesTo4)
    as (net & Hinit & Hforward).
  - exact r50_c4_valid.
  - reflexivity.
  - simpl. lia.
  - exists net. split; [exact Hinit|]. rewrite Hforward.
    by destruct (@body_forward nat counting net 0%nat).
Defined.
